(** * PCAP File Analyzer: the upload route of [server.js]

    A shallow embedding of the capture analysis performed by the handler of
    [POST /api/upload] (server.js, lines 113-263): the three listeners it
    registers on the capture parser ("packet", "end", "error"), the
    per-request variables they close over, and the response they write.

    The capture parser itself is the npm package [pcap-parser]; it is not part
    of the repository.  Its behaviour enters the model as the trace of events
    it delivers to the listeners.  A [Capture] is the plain case, a finite
    sequence of "packet" events closed by one "end" event or one "error"
    event; the listeners are also run on arbitrary sequences of events
    ([deliver]), and on the interleaved events of several uploads in one
    process ([run]).

    Counters are natural numbers.  The upload is limited to 10 MB (line
    106), so every counter stays far below 2^53, where JavaScript numbers
    stop being exact. *)

From Stdlib Require Import NArith Ascii DecimalString DecimalN.
From stdpp Require Import base list strings gmap sorting.

#[local] Set Warnings "-clear-no-such-hyp,-register-all".

(** ** JavaScript values used by the handler *)

Module Js.

(** The exceptions the listeners can meet, by their [code]: the two
    [RangeError]s of a [Buffer] read past the end, and the error of a
    response written after one was sent. *)
Inductive Error : Type :=
| ERR_OUT_OF_RANGE (offset : nat)
| ERR_BUFFER_OUT_OF_BOUNDS
| ERR_HTTP_HEADERS_SENT.

(** [String(n)] for a non-negative integer: its decimal digits. *)
Definition show_nat (n : nat) : string :=
  NilEmpty.string_of_uint (Nat.to_uint n).

Definition show_N (n : N) : string :=
  NilEmpty.string_of_uint (N.to_uint n).

(** A template-literal hole [${v}] where [v] is an element read from a
    [Buffer] by index: a number, or [undefined] when the index is out of
    range. *)
Definition tpl (v : option N) : string :=
  match v with
  | Some n => show_N n
  | None => "undefined"
  end.

(** A plain object used as a dictionary.  [Object.entries] lists string
    keys in insertion order, and assigning to an existing key keeps its
    position, so the object is an association list without repeated keys.
    Every key the handler uses contains a ['.'], so none is an array index
    (those would be listed first) and none names an inherited property of
    [Object.prototype]. *)
Abbreviation obj V := (list (string * V)).

Fixpoint get {V} (k : string) (o : obj V) : option V :=
  match o with
  | [] => None
  | (k', v) :: o' => if decide (k = k') then Some v else get k o'
  end.

Fixpoint set {V} (k : string) (v : V) (o : obj V) : obj V :=
  match o with
  | [] => [(k, v)]
  | (k', v') :: o' =>
      if decide (k = k') then (k', v) :: o' else (k', v') :: set k v o'
  end.

Definition entries {V} (o : obj V) : list (string * V) := o.

Definition keys {V} (o : obj V) : list string := o.*1.

(** [v || 0] on a value that is a number or [undefined]. *)
Definition or_zero (v : option nat) : nat :=
  match v with
  | Some (S n) => S n
  | _ => 0
  end.

End Js.

(** ** Node.js [Buffer] *)

Module Buffer.

Abbreviation t := (list Byte.byte).

(** [buf[i]]: the byte as a number, [undefined] out of range. *)
Definition index (buf : t) (i : nat) : option N := Byte.to_N <$> buf !! i.

(** [buf.readUInt16BE(offset)]: throws unless both bytes exist, with
    [boundsError(offset, buf.length - 2)], whose code depends on whether
    the buffer can hold two bytes at all. *)
Definition readUInt16BE (buf : t) (offset : nat) : Js.Error + N :=
  match index buf offset, index buf (S offset) with
  | Some first, Some last =>
      inr (first * 2 ^ 8 + last)%N
  | _, _ =>
      if decide (length buf < 2) then inl Js.ERR_BUFFER_OUT_OF_BOUNDS
      else inl (Js.ERR_OUT_OF_RANGE offset)
  end.

End Buffer.

(** ** Data of one request *)

(** The [packet] object handed to the "packet" listener.  The listener reads
    [packet.data] and [packet.header?.orig_len] only. *)
Record PacketHeader : Type := { orig_len : option N }.

Record Packet : Type := {
  data : Buffer.t;
  header : option PacketHeader
}.

(** An element of [packetDetails]. *)
Record PacketDetail : Type := {
  srcIP : string;
  dstIP : string;
  protocol : string;
  packetSize : N
}.

(** An element of [threats]. *)
Record Threat : Type := {
  type : string;
  description : string
}.

Record AnalysisResult : Type := {
  res_totalPackets : nat;
  res_packetDetails : list PacketDetail;
  res_threats : list Threat;
  timestamp : string
}.

(** What a handler writes to [res]: [res.json(analysisResult)] or
    [res.status(code).json({ error })]. *)
Inductive Response : Type :=
| Json (r : AnalysisResult)
| JsonError (status : nat) (error : string).

#[global] Instance PacketDetail_eq_dec : EqDecision PacketDetail.
Proof. solve_decision. Defined.

#[global] Instance Threat_eq_dec : EqDecision Threat.
Proof. solve_decision. Defined.

(** The variables declared at lines 143-146, together with the effects
    the listeners have outside them: lines written with [console.error],
    responses written to [res], and exceptions that leave a listener.  No
    listener is called inside a [try] block of the repository, so such an
    exception is uncaught and the process exits. *)
Record ReqState : Type := {
  totalPackets : nat;
  packetDetails : list PacketDetail;
  threats : list Threat;
  connectionCounts : Js.obj nat;
  console : list string;
  res : list Response;
  thrown : list Js.Error
}.

Definition initial : ReqState :=
  {| totalPackets := 0;
     packetDetails := [];
     threats := [];
     connectionCounts := [];
     console := [];
     res := [];
     thrown := [] |}.

(** The mutations the listeners perform, one definition per statement
    form. *)
Definition incr_totalPackets (st : ReqState) : ReqState :=
  {| totalPackets := totalPackets st + 1;
     packetDetails := packetDetails st;
     threats := threats st;
     connectionCounts := connectionCounts st;
     console := console st;
     res := res st;
     thrown := thrown st |}.

Definition push_detail (d : PacketDetail) (st : ReqState) : ReqState :=
  {| totalPackets := totalPackets st;
     packetDetails := packetDetails st ++ [d];
     threats := threats st;
     connectionCounts := connectionCounts st;
     console := console st;
     res := res st;
     thrown := thrown st |}.

Definition assign_count (key : string) (v : nat) (st : ReqState) : ReqState :=
  {| totalPackets := totalPackets st;
     packetDetails := packetDetails st;
     threats := threats st;
     connectionCounts := Js.set key v (connectionCounts st);
     console := console st;
     res := res st;
     thrown := thrown st |}.

Definition set_threats (ts : list Threat) (st : ReqState) : ReqState :=
  {| totalPackets := totalPackets st;
     packetDetails := packetDetails st;
     threats := ts;
     connectionCounts := connectionCounts st;
     console := console st;
     res := res st;
     thrown := thrown st |}.

Definition console_error (line : string) (st : ReqState) : ReqState :=
  {| totalPackets := totalPackets st;
     packetDetails := packetDetails st;
     threats := threats st;
     connectionCounts := connectionCounts st;
     console := console st ++ [line];
     res := res st;
     thrown := thrown st |}.

(** An exception leaves the listener. *)
Definition throw (e : Js.Error) (st : ReqState) : ReqState :=
  {| totalPackets := totalPackets st;
     packetDetails := packetDetails st;
     threats := threats st;
     connectionCounts := connectionCounts st;
     console := console st;
     res := res st;
     thrown := thrown st ++ [e] |}.

(** [res.json(body)] and [res.status(code).json(body)]: the response is
    written once; Express throws when the headers were sent already. *)
Definition send (r : Response) (st : ReqState) : ReqState :=
  match res st with
  | [] =>
      {| totalPackets := totalPackets st;
         packetDetails := packetDetails st;
         threats := threats st;
         connectionCounts := connectionCounts st;
         console := console st;
         res := [r];
         thrown := thrown st |}
  | _ :: _ => throw Js.ERR_HTTP_HEADERS_SENT st
  end.

(** ** The "packet" listener (lines 151-186) *)

(** [packet.data.length || packet.header?.orig_len || 0] *)
Definition packetLength (packet : Packet) : N :=
  match N.of_nat (length (data packet)) with
  | N0 =>
      match header packet with
      | Some h =>
          match orig_len h with
          | Some (Npos p) => Npos p
          | _ => 0%N
          end
      | None => 0%N
      end
  | len => len
  end.

(** The body of the [try] block (lines 155-181): it throws, or it returns
    the state it leaves behind. *)
Definition packet_try (packet : Packet) (st : ReqState) : Js.Error + ReqState :=
  match Buffer.readUInt16BE (data packet) 12 with
  | inl e => inl e
  | inr ethertype =>
      if decide (ethertype = 0x0800%N) then
        let byte_at := Buffer.index (data packet) in
        let srcIP := Js.tpl (byte_at 26) +:+ "." +:+ Js.tpl (byte_at 27) +:+ "."
                     +:+ Js.tpl (byte_at 28) +:+ "." +:+ Js.tpl (byte_at 29) in
        let dstIP := Js.tpl (byte_at 30) +:+ "." +:+ Js.tpl (byte_at 31) +:+ "."
                     +:+ Js.tpl (byte_at 32) +:+ "." +:+ Js.tpl (byte_at 33) in
        let protocol := byte_at 23 in
        let protoName :=
          if decide (protocol = Some 6%N) then "TCP"
          else if decide (protocol = Some 17%N) then "UDP"
          else if decide (protocol = Some 1%N) then "ICMP"
          else "Unknown (" +:+ Js.tpl protocol +:+ ")" in
        let packetLength := packetLength packet in
        let st := push_detail {| srcIP := srcIP; dstIP := dstIP;
                                 protocol := protoName;
                                 packetSize := packetLength |} st in
        let connectionKey := srcIP +:+ "->" +:+ dstIP in
        inr (assign_count connectionKey
               (Js.or_zero (Js.get connectionKey (connectionCounts st)) + 1) st)
      else inr st
  end.

(** The listener: [totalPackets++], then the [try] block; the [catch]
    clause logs and goes on with the next packet. *)
Definition on_packet (st : ReqState) (packet : Packet) : ReqState :=
  let st := incr_totalPackets st in
  match packet_try packet st with
  | inr st' => st'
  | inl packetError => console_error "Error processing packet:" st
  end.

(** ** The "end" listener (lines 188-247) *)

Definition ddos_threat (connection : string) (count : nat) : Threat :=
  {| type := "Potential DDoS";
     description := "High traffic detected on connection " +:+ connection
                    +:+ " with " +:+ Js.show_nat count +:+ " packets." |}.

Definition scan_threat (srcIP : string) (size : nat) : Threat :=
  {| type := "Potential Port Scan";
     description := "Source IP " +:+ srcIP +:+ " connected to "
                    +:+ Js.show_nat size +:+ " unique destinations." |}.

(** Lines 190-197: the loop over [Object.entries(connectionCounts)]. *)
Definition ddos_loop (entries : list (string * nat)) (threats : list Threat)
  : list Threat :=
  foldl (λ threats '(connection, count),
           if decide (100 < count) then threats ++ [ddos_threat connection count]
           else threats)
        threats entries.

(** Lines 201-205: one turn of [packetDetails.forEach].  A [Set] is a
    finite set of strings; [.add] changes the set stored under [key]. *)
Definition scan_visit (portScanSources : Js.obj (gset string))
    (packet : PacketDetail) : Js.obj (gset string) :=
  let key := srcIP packet in
  let portScanSources :=
    Js.set key (default ∅ (Js.get key portScanSources)) portScanSources in
  Js.set key (default ∅ (Js.get key portScanSources) ∪ {[dstIP packet]})
    portScanSources.

Definition portScanSources (packetDetails : list PacketDetail)
  : Js.obj (gset string) :=
  foldl scan_visit [] packetDetails.

(** Lines 207-214: the loop over [Object.entries(portScanSources)]. *)
Definition scan_loop (entries : list (string * gset string))
    (threats : list Threat) : list Threat :=
  foldl (λ threats '(srcIP, dstIPs),
           if decide (20 < size dstIPs)
           then threats ++ [scan_threat srcIP (size dstIPs)]
           else threats)
        threats entries.

(** The listener.  [now] is the value of [new Date().toISOString()].  The
    deletion of the uploaded file that the listener schedules for five
    minutes later touches none of the variables modelled here. *)
Definition on_end (now : string) (st : ReqState) : ReqState :=
  let st := set_threats
              (ddos_loop (Js.entries (connectionCounts st)) (threats st)) st in
  let portScanSources := portScanSources (packetDetails st) in
  let st := set_threats
              (scan_loop (Js.entries portScanSources) (threats st)) st in
  let analysisResult :=
    {| res_totalPackets := totalPackets st;
       res_packetDetails := packetDetails st;
       res_threats := threats st;
       timestamp := now |} in
  send (Json analysisResult) st.

(** ** The "error" listener (lines 249-253) *)

Definition on_error (st : ReqState) : ReqState :=
  let st := console_error "PCAP parsing error:" st in
  send (JsonError 500 "Failed to parse PCAP file.") st.

(** ** One request *)

(** How the parser closes the event trace of a [Capture]. *)
Inductive Closing : Type :=
| End
| Error.

(** What the parser makes of an uploaded file: the frames it delivers as
    "packet" events, in order, and the event that follows them. *)
Record Capture : Type := {
  frames : list Packet;
  closing : Closing
}.

(** The state after the "packet" events. *)
Definition after_packets (frames : list Packet) : ReqState :=
  foldl on_packet initial frames.

(** The state after the whole trace. *)
Definition analyze (now : string) (c : Capture) : ReqState :=
  let st := after_packets (frames c) in
  match closing c with
  | End => on_end now st
  | Error => on_error st
  end.

(** ** The events of a parser *)

Inductive Event : Type :=
| OnPacket (packet : Packet)
| OnEnd (now : string)
| OnError.

Definition listen (st : ReqState) (e : Event) : ReqState :=
  match e with
  | OnPacket packet => on_packet st packet
  | OnEnd now => on_end now st
  | OnError => on_error st
  end.

(** An event reaches its listener unless the process has exited. *)
Definition deliver (st : ReqState) (e : Event) : ReqState :=
  match thrown st with
  | [] => listen st e
  | _ :: _ => st
  end.

(** The events of a capture, in the order the parser emits them. *)
Definition events (now : string) (c : Capture) : list Event :=
  (OnPacket <$> frames c)
  ++ [match closing c with End => OnEnd now | Error => OnError end].

(** ** The process and its calls of the route handler *)

(** A cell of the heap: the value of a variable, or the content of an
    array, of an object or of a response. *)
Inductive Cell : Type :=
| NumberCell (n : nat)
| DetailsCell (a : list PacketDetail)
| ThreatsCell (a : list Threat)
| CountsCell (o : Js.obj nat)
| ResCell (sent : list Response).

(** The bindings of one call of the route handler: the [res] Express hands
    to it and the four variables of lines 143-146, each with the address of
    its cell.  The listeners registered by the call close over them. *)
Record Scope : Type := {
  res_at : nat;
  totalPackets_at : nat;
  packetDetails_at : nat;
  threats_at : nat;
  connectionCounts_at : nat
}.

(** The process: the heap with the next unused address, what is shared by
    all calls (the console, and the exceptions no one caught), and the
    scopes of the calls so far, oldest first. *)
Record Process : Type := {
  heap : gmap nat Cell;
  next : nat;
  stderr : list string;
  uncaught : list Js.Error;
  calls : list Scope
}.

Definition boot : Process :=
  {| heap := ∅; next := 0; stderr := []; uncaught := []; calls := [] |}.

(** A new cell. *)
Definition alloc (c : Cell) (p : Process) : nat * Process :=
  (next p,
   {| heap := <[next p := c]> (heap p);
      next := S (next p);
      stderr := stderr p;
      uncaught := uncaught p;
      calls := calls p |}).

(** A call of the route handler for an upload that reaches line 149:
    Express has made the [res] of the request; [let totalPackets = 0],
    [const packetDetails = []], [const threats = []] and
    [const connectionCounts = {}] make a variable and a value each; the
    listeners are registered with these bindings. *)
Definition call_upload (p : Process) : Process :=
  let '(res_at, p) := alloc (ResCell []) p in
  let '(totalPackets_at, p) := alloc (NumberCell 0) p in
  let '(packetDetails_at, p) := alloc (DetailsCell []) p in
  let '(threats_at, p) := alloc (ThreatsCell []) p in
  let '(connectionCounts_at, p) := alloc (CountsCell []) p in
  {| heap := heap p;
     next := next p;
     stderr := stderr p;
     uncaught := uncaught p;
     calls := calls p ++ [{| res_at := res_at;
                             totalPackets_at := totalPackets_at;
                             packetDetails_at := packetDetails_at;
                             threats_at := threats_at;
                             connectionCounts_at := connectionCounts_at |}] |}.

(** What the listeners of a scope see. *)
Definition load (sc : Scope) (p : Process) : ReqState :=
  {| totalPackets :=
       match heap p !! totalPackets_at sc with
       | Some (NumberCell n) => n
       | _ => 0
       end;
     packetDetails :=
       match heap p !! packetDetails_at sc with
       | Some (DetailsCell a) => a
       | _ => []
       end;
     threats :=
       match heap p !! threats_at sc with
       | Some (ThreatsCell a) => a
       | _ => []
       end;
     connectionCounts :=
       match heap p !! connectionCounts_at sc with
       | Some (CountsCell o) => o
       | _ => []
       end;
     console := stderr p;
     res :=
       match heap p !! res_at sc with
       | Some (ResCell sent) => sent
       | _ => []
       end;
     thrown := uncaught p |}.

(** What the listeners of a scope leave. *)
Definition store (sc : Scope) (st : ReqState) (p : Process) : Process :=
  {| heap :=
       <[connectionCounts_at sc := CountsCell (connectionCounts st)]>
         (<[threats_at sc := ThreatsCell (threats st)]>
            (<[packetDetails_at sc := DetailsCell (packetDetails st)]>
               (<[totalPackets_at sc := NumberCell (totalPackets st)]>
                  (<[res_at sc := ResCell (res st)]> (heap p)))));
     next := next p;
     stderr := console st;
     uncaught := thrown st;
     calls := calls p |}.

(** Node.js runs one thing at a time: a call of the route handler, or a
    listener of the parser of some call, in any interleaving.  Once an
    exception was left uncaught the process has exited: no call is made and
    no listener runs. *)
Inductive Step : Type :=
| Call
| Emit (call : nat) (e : Event).

Definition step (p : Process) (s : Step) : Process :=
  match s with
  | Call =>
      match uncaught p with
      | [] => call_upload p
      | _ :: _ => p
      end
  | Emit call e =>
      match calls p !! call with
      | Some sc => store sc (deliver (load sc p) e) p
      | None => p
      end
  end.

Definition run (steps : list Step) : Process := foldl step boot steps.

(** The events of call [i] among the steps, the calls before them being
    [n] in number: those emitted once the call has been made. *)
Fixpoint events_from (n : nat) (i : nat) (steps : list Step) : list Event :=
  match steps with
  | [] => []
  | Call :: steps => events_from (S n) i steps
  | Emit call e :: steps =>
      if decide (call = i ∧ i < n) then e :: events_from n i steps
      else events_from n i steps
  end.

Definition events_of (i : nat) (steps : list Step) : list Event :=
  events_from 0 i steps.

(** The variables of a call and its response, without what is shared by
    the process. *)
Definition vars (st : ReqState)
  : nat * list PacketDetail * list Threat * Js.obj nat * list Response :=
  (totalPackets st, packetDetails st, threats st, connectionCounts st, res st).

(** The addresses of a scope. *)
Definition refs (sc : Scope) : list nat :=
  [res_at sc; totalPackets_at sc; packetDetails_at sc; threats_at sc;
   connectionCounts_at sc].

(** The number of calls among the steps. *)
Fixpoint arrivals (steps : list Step) : nat :=
  match steps with
  | [] => 0
  | Call :: steps => S (arrivals steps)
  | Emit _ _ :: steps => arrivals steps
  end.

(** No cell belongs to two bindings, and every cell of a binding is
    allocated. *)
Definition well_formed (p : Process) : Prop :=
  NoDup (calls p ≫= refs) ∧ Forall (λ a, a < next p) (calls p ≫= refs).

(** ** Frames used in the examples *)

Definition byte_of (n : nat) : Byte.byte := default Byte.x00 (Byte.of_nat n).

(** A 34-byte Ethernet frame carrying an IPv4 header without options:
    ethertype 0x0800 at offset 12, the protocol number at offset 23, the
    source address at 26-29 and the destination address at 30-33. *)
Definition ipv4_frame (proto : nat) (src dst : list nat) : Packet :=
  {| data := replicate 12 Byte.x00 ++ [Byte.x08; Byte.x00]
             ++ replicate 9 Byte.x00 ++ [byte_of proto]
             ++ replicate 2 Byte.x00
             ++ (byte_of <$> take 4 (src ++ replicate 4 0))
             ++ (byte_of <$> take 4 (dst ++ replicate 4 0));
     header := None |}.

(** An ARP frame: ethertype 0x0806. *)
Definition arp_frame : Packet :=
  {| data := replicate 12 Byte.x00 ++ [Byte.x08; Byte.x06]
             ++ replicate 28 Byte.x00;
     header := None |}.

(** A frame that stops after the ethertype field. *)
Definition bare_ipv4_frame : Packet :=
  {| data := replicate 12 Byte.x00 ++ [Byte.x08; Byte.x00]; header := None |}.

(** A frame that stops inside the ethertype field. *)
Definition short_frame : Packet :=
  {| data := replicate 13 Byte.x00; header := None |}.

(** A GRE frame: protocol number 47. *)
Definition gre_frame : Packet := ipv4_frame 47 [10; 0; 0; 1] [10; 0; 0; 2].

(** [n] TCP frames from 10.0.0.1 to 10.0.0.2. *)
Definition flood (n : nat) : list Packet :=
  replicate n (ipv4_frame 6 [10; 0; 0; 1] [10; 0; 0; 2]).

(** One TCP frame from 10.0.0.1 to each of 10.0.1.0, ..., 10.0.1.(n-1). *)
Definition sweep (n : nat) : list Packet :=
  (λ i, ipv4_frame 6 [10; 0; 0; 1] [10; 0; 1; i]) <$> seq 0 n.

(** The [threats] a response carries. *)
Definition response_threats (r : Response) : list Threat :=
  match r with
  | Json a => res_threats a
  | JsonError _ _ => []
  end.

(** ** Notions the statements are written with *)

(** The entries a "packet" event appends to [packetDetails]: those the
    listener appends when run from the initial state. *)
Definition decoded (packet : Packet) : list PacketDetail :=
  packetDetails (on_packet initial packet).

(** The key under which a packet detail is counted (line 179). *)
Definition conn_key (d : PacketDetail) : string :=
  srcIP d +:+ "->" +:+ dstIP d.

(** An address as line 159 or 160 renders it from four buffer reads. *)
Definition address (a b c d : option N) : string :=
  Js.tpl a +:+ "." +:+ Js.tpl b +:+ "." +:+ Js.tpl c +:+ "." +:+ Js.tpl d.

(** How many packet details were recorded for a connection. *)
Definition packets_on (key : string) (ds : list PacketDetail) : nat :=
  length (filter (λ d, conn_key d = key) ds).

(** The distinct destination addresses recorded for a source. *)
Definition destinations_of (src : string) (ds : list PacketDetail)
  : list string :=
  remove_dups (dstIP <$> filter (λ d, srcIP d = src) ds).

Definition distinct_destinations (src : string) (ds : list PacketDetail)
  : nat :=
  length (destinations_of src ds).

(** How many times a finding occurs in a list of findings. *)
Definition occurrences (t : Threat) (ts : list Threat) : nat :=
  length (filter (λ t', t' = t) ts).

(** The sum of the counters of a dictionary. *)
Definition total_count (o : Js.obj nat) : nat := sum_list (o.*2).

(** A string without blanks. *)
Fixpoint no_space (s : string) : bool :=
  match s with
  | EmptyString => true
  | String c s' => if decide (c = " "%char) then false else no_space s'
  end.

(** The ethertype field of a frame, when the frame is long enough to hold
    it: bytes 12 and 13, big-endian. *)
Definition ethertype_field (packet : Packet) : option N :=
  match data packet !! 12, data packet !! 13 with
  | Some hi, Some lo => Some (Byte.to_N hi * 256 + Byte.to_N lo)%N
  | _, _ => None
  end.

(** The protocol name as the specification words it: no blank before the
    parenthesis. *)
Definition spec_protocol_name (n : N) : string :=
  if decide (n = 6%N) then "TCP"
  else if decide (n = 17%N) then "UDP"
  else if decide (n = 1%N) then "ICMP"
  else "Unknown(" +:+ Js.show_N n +:+ ")".

(** The protocol name of the amended statement: a blank before the
    parenthesis, and a name for the frame that has no byte at offset 23. *)
Definition protocol_name (v : option N) : string :=
  match v with
  | Some 6%N => "TCP"
  | Some 17%N => "UDP"
  | Some 1%N => "ICMP"
  | Some n => "Unknown (" +:+ Js.show_N n +:+ ")"
  | None => "Unknown (undefined)"
  end.

(** A response with its timestamp blanked. *)
Definition strip_timestamp (r : Response) : Response :=
  match r with
  | Json a =>
      Json {| res_totalPackets := res_totalPackets a;
              res_packetDetails := res_packetDetails a;
              res_threats := res_threats a;
              timestamp := "" |}
  | JsonError status error => JsonError status error
  end.

(** The assignment of line 180, for a packet detail. *)
Definition count_packet (cc : Js.obj nat) (d : PacketDetail) : Js.obj nat :=
  Js.set (conn_key d) (Js.or_zero (Js.get (conn_key d) cc) + 1) cc.

(** The counter a connection should have: the number of packet details
    recorded for it, and no entry at all when there is none. *)
Definition counted (key : string) (ds : list PacketDetail) : option nat :=
  match packets_on key ds with
  | 0 => None
  | S n => Some (S n)
  end.

(** The invariant of the per-request variables: [connectionCounts] has no
    repeated key and counts the entries of [packetDetails], whose addresses
    hold no blank. *)
Definition consistent (st : ReqState) : Prop :=
  NoDup (Js.keys (connectionCounts st))
  ∧ Forall (λ d, no_space (srcIP d) ∧ no_space (dstIP d)) (packetDetails st)
  ∧ ∀ key, Js.get key (connectionCounts st) = counted key (packetDetails st).

(** The findings a loop of the "end" listener makes from the entries of a
    dictionary: [mk] builds the finding, [P] is the test on the value. *)
Definition findings {V : Type} (mk : string → V → Threat) (P : V → Prop)
    `{!∀ v, Decision (P v)} (es : Js.obj V) : list Threat :=
  (λ e, mk e.1 e.2) <$> filter (λ e, P e.2) es.

(** A string in which a given character does not occur. *)
Fixpoint lacks (c : ascii) (s : string) : bool :=
  match s with
  | EmptyString => true
  | String c' s' => if decide (c' = c) then false else lacks c s'
  end.

(** Whether a "packet" event appends to [packetDetails]. *)
Definition recognised (packet : Packet) : Prop := decoded packet ≠ [].

(** The elements of a list without repetition, in the order in which they
    first occur. *)
Definition first_seen (l : list string) : list string :=
  reverse (remove_dups (reverse l)).

(** The findings of the "end" listener, from the recorded packet details:
    the counters are those line 180 leaves after counting each detail. *)
Definition threats_of (ds : list PacketDetail) : list Threat :=
  findings ddos_threat (λ c, 100 < c) (foldl count_packet [] ds)
  ++ findings (λ s dsts, scan_threat s (size dsts)) (λ dsts, 20 < size dsts)
       (portScanSources ds).

(** ** The upload filter and the stored file name (lines 87-108) *)

Module JsString.

(** [s.endsWith(searchString)]: [searchString] is compared with the
    characters of [s] that start at [s.length - searchString.length]. *)
Definition endsWith (s searchString : string) : bool :=
  let len := String.length s in
  let searchLength := String.length searchString in
  if decide (searchLength ≤ len)
  then bool_decide (String.substring (len - searchLength) searchLength s
                    = searchString)
  else false.

End JsString.

(** What the [fileFilter] option hands to its callback: [cb(null, true)] or
    [cb(new Error(message))]. *)
Inductive FilterResult : Type :=
| Accepted
| Rejected (message : string).

Definition fileFilter (originalname : string) : FilterResult :=
  if JsString.endsWith originalname ".pcap" then Accepted
  else Rejected "Only .pcap files are allowed".

(** The [filename] option of the disk storage; [now] is [Date.now()]. *)
Definition filename (now : N) (originalname : string) : string :=
  Js.show_N now +:+ "-" +:+ originalname.

(** ** The feedback and report routes (lines 265-489) *)

Module Api.

Section routes.

(** JSON numbers are kept abstract: the routes store them and hand them
    back, and only ask whether one is zero, which makes it falsy. *)
Context {Num : Type} (is_zero : Num → bool).

(** A value that [express.json()] or [JSON.parse] produces.  The keys of
    an object are distinct. *)
Inductive Json : Type :=
| JNull
| JBool (b : bool)
| JNum (x : Num)
| JStr (s : string)
| JArr (items : list Json)
| JObj (fields : list (string * Json)).

(** Whether a value is truthy; [None] is [undefined]. *)
Definition truthy (v : option Json) : bool :=
  match v with
  | None => false
  | Some JNull => false
  | Some (JBool b) => b
  | Some (JNum x) => negb (is_zero x)
  | Some (JStr s) => negb (bool_decide (s = ""))
  | Some (JArr _) => true
  | Some (JObj _) => true
  end.

(** [v || fallback] *)
Definition or_else (v : option Json) (fallback : Json) : Json :=
  match v with
  | Some x => if truthy v then x else fallback
  | None => fallback
  end.

(** [res.status(status).json(body)]; [res.json(body)] has status 200. *)
Record Reply : Type := {
  status : nat;
  body : Json
}.

Definition error_reply (status : nat) (error : string) : Reply :=
  {| status := status; body := JObj [("error", JStr error)] |}.

(** *** Feedback (lines 266-299) *)

(** The three properties the route reads from [req.body]. *)
Record FeedbackBody : Type := {
  name : option Json;
  email : option Json;
  message : option Json
}.

(** What [await feedback.save()] does when it is reached. *)
Inductive FeedbackSave : Type :=
| FeedbackSaved
| FeedbackSaveThrows.

(** [connected] is [isMongoConnected && Feedback].  The reply does not
    depend on the branch taken after the validation: both branches only
    log. *)
Definition feedback (connected : bool) (db : FeedbackSave)
    (req : FeedbackBody) : Reply :=
  if negb (truthy (name req)) || negb (truthy (email req))
     || negb (truthy (message req))
  then error_reply 400 "All fields are required"
  else
    let logged :=
      if connected then
        match db with
        | FeedbackSaved => "Feedback saved to MongoDB"
        | FeedbackSaveThrows => "Error saving feedback to MongoDB:"
        end
      else "Feedback received (local mode):" in
    {| status := 201;
       body := JObj [("message", JStr "Feedback submitted successfully")] |}.

(** *** The reports directory *)

(** What [JSON.parse(fs.readFileSync(path, 'utf8'))] makes of a file: it
    throws, or it returns a value.  A file written with [JSON.stringify]
    parses to the value written. *)
Inductive File : Type :=
| Unparsable
| Parsed (v : Json).

(** The directory [reports] under the server's directory: absent, or a
    finite map from file names to plain files.  File-system calls are
    taken to succeed. *)
Definition Reports : Type := option (gmap string File).

(** The file [path.join(__dirname, 'reports', `${reportId}.json`)] names
    when [reportId] holds no path separator.  With a separator [path.join]
    normalises the path, which then names another file of the directory or
    a file outside it; such identifiers are outside this model, for which
    [None] stands, and the routes have no reply in the model for them. *)
Definition report_file (reportId : string) : option string :=
  if lacks "/" reportId then Some (reportId +:+ ".json") else None.

(** [fs.existsSync(reportPath)] followed by the read. *)
Definition read_report (reports : Reports) (file : string) : option File :=
  match reports with
  | Some dir => dir !! file
  | None => None
  end.

(** *** Saving a report (lines 302-358) *)

(** The four properties the route reads from [req.body]. *)
Record SaveBody : Type := {
  reportName : option Json;
  reportType : option Json;
  data : option Json;
  userId : option Json
}.

(** What [await report.save()] does when it is reached: it returns the
    saved document, whose [_id.toString()] is [id], or it throws. *)
Inductive SaveOutcome : Type :=
| Stored (id : string)
| SaveThrows.

Definition saved_reply (reportId : string) : Reply :=
  {| status := 201;
     body := JObj [("message", JStr "Report saved successfully");
                   ("reportId", JStr reportId)] |}.

(** The object written to the file in local mode (lines 336-343).  The
    three required properties are present when the route gets there. *)
Definition reportData (reportId : string) (req : SaveBody) (createdAt : string)
  : Json :=
  JObj [("_id", JStr reportId);
        ("userId", or_else (userId req) (JStr "anonymous"));
        ("reportName", default JNull (reportName req));
        ("reportType", default JNull (reportType req));
        ("data", default JNull (data req));
        ("createdAt", JStr createdAt)].

(** [connected] is [isMongoConnected && Report]; [now] is [Date.now()] at
    line 310 and [createdAt] is [new Date().toISOString()] at line 342. *)
Definition save_report (connected : bool) (db : SaveOutcome) (now : N)
    (createdAt : string) (req : SaveBody) (reports : Reports)
  : Reports * Reply :=
  if negb (truthy (reportName req)) || negb (truthy (reportType req))
     || negb (truthy (data req))
  then (reports, error_reply 400 "Report name, type, and data are required")
  else
    let reportId := "local_" +:+ Js.show_N now in
    if connected then
      match db with
      | Stored id => (reports, saved_reply id)
      | SaveThrows => (reports, saved_reply reportId)
      end
    else
      let dir := default ∅ reports in
      (Some (<[reportId +:+ ".json" := Parsed (reportData reportId req createdAt)]>
               dir),
       saved_reply reportId).

(** *** Viewing a report (lines 407-447) *)

(** What [await Report.findById(reportId)] does when it is reached: it
    returns a document, or [null], or it throws. *)
Inductive FindOutcome : Type :=
| Found (doc : list (string * Json))
| NotFound
| FindThrows.

Definition view_report (connected : bool) (db : FindOutcome)
    (reportId : string) (reports : Reports) : option Reply :=
  let report :=
    if connected then
      match db with
      | Found doc => JObj doc
      | NotFound => JNull
      | FindThrows => JNull
      end
    else JNull in
  let report :=
    if negb (truthy (Some report)) then
      match report_file reportId with
      | Some file =>
          match read_report reports file with
          | Some (Parsed v) => Some v
          | Some Unparsable => Some report
          | None => Some report
          end
      | None => None
      end
    else Some report in
  match report with
  | Some report =>
      if negb (truthy (Some report))
      then Some (error_reply 404 "Report not found")
      else Some {| status := 200; body := report |}
  | None => None
  end.

(** *** Deleting a report (lines 450-488) *)

(** What [await Report.findByIdAndDelete(reportId)] does when it is
    reached: it returns the deleted document, or [null], or it throws. *)
Inductive DeleteOutcome : Type :=
| Removed
| Missing
| DeleteThrows.

Definition delete_report (connected : bool) (db : DeleteOutcome)
    (reportId : string) (reports : Reports) : option (Reports * Reply) :=
  let deleted :=
    if connected then
      match db with
      | Removed => true
      | Missing => false
      | DeleteThrows => false
      end
    else false in
  let outcome :=
    if negb deleted then
      match report_file reportId with
      | Some file =>
          match reports with
          | Some dir =>
              if bool_decide (is_Some (dir !! file))
              then Some (Some (delete file dir), true)
              else Some (reports, deleted)
          | None => Some (reports, deleted)
          end
      | None => None
      end
    else Some (reports, deleted) in
  match outcome with
  | Some (reports, deleted) =>
      if negb deleted then Some (reports, error_reply 404 "Report not found")
      else Some (reports,
                 {| status := 200;
                    body := JObj [("message",
                                   JStr "Report deleted successfully")] |})
  | None => None
  end.

(** *** Listing the reports of a user (lines 361-404) *)

(** [value[key]] for a parsed value: [None] when the read throws, which it
    does on [null]; [Some None] when the property is [undefined]. *)
Definition get_field (key : string) (value : Json) : option (option Json) :=
  match value with
  | JNull => None
  | JObj fields => Some (Js.get key fields)
  | _ => Some None
  end.

(** The order in which [fs.readdirSync] lists a directory, and the time
    value of [new Date(v)], [None] for an invalid date, are taken as
    given. *)
Context (readdir : gmap string File → list string).
Context (time_of : option Json → option Z).

(** [new Date(b.createdAt) - new Date(a.createdAt)]; [None] is [NaN]. *)
Definition newest_first (a b : Json) : option Z :=
  match time_of (default None (get_field "createdAt" b)),
        time_of (default None (get_field "createdAt" a)) with
  | Some tb, Some ta => Some (tb - ta)%Z
  | _, _ => None
  end.

(** [a] has a valid creation time, and so has [b], which is not later. *)
Definition not_older (a b : Json) : Prop :=
  ∃ ta tb : Z,
    time_of (default None (get_field "createdAt" a)) = Some ta
    ∧ time_of (default None (get_field "createdAt" b)) = Some tb
    ∧ (tb ≤ ta)%Z.

(** [reports.sort(compare)]: the sort is stable, and [a] stays before [b]
    unless [compare(a, b)] is positive.  This is the result for a
    consistent comparator; ECMAScript fixes no other. *)
Fixpoint sort_insert (compare : Json → Json → option Z) (x : Json)
    (sorted : list Json) : list Json :=
  match sorted with
  | [] => [x]
  | y :: sorted' =>
      match compare x y with
      | Some (Zpos _) => y :: sort_insert compare x sorted'
      | _ => x :: sorted
      end
  end.

Definition sort (compare : Json → Json → option Z) (l : list Json)
  : list Json :=
  foldr (sort_insert compare) [] l.

(** What [await Report.find({ userId }).sort({ createdAt: -1 })] does when
    it is reached: it returns documents, or it throws. *)
Inductive ListOutcome : Type :=
| Fetched (docs : list Json)
| FetchThrows.

(** One turn of the loop over the files (lines 383-394). *)
Definition scan_file (userId : string) (dir : gmap string File)
    (reports : list Json) (file : string) : list Json :=
  if JsString.endsWith file ".json" then
    match dir !! file with
    | Some (Parsed reportData) =>
        match get_field "userId" reportData with
        | Some (Some (JStr u)) =>
            if bool_decide (u = userId) then reports ++ [reportData]
            else reports
        | _ => reports
        end
    | _ => reports
    end
  else reports.

(** [param] is [req.params.userId]. *)
Definition list_reports (connected : bool) (db : ListOutcome)
    (param : string) (reports : Reports) : Reply :=
  let userId := if bool_decide (param = "") then "anonymous" else param in
  let found :=
    if connected then
      match db with
      | Fetched docs => docs
      | FetchThrows => []
      end
    else [] in
  let found :=
    match found with
    | [] =>
        match reports with
        | Some dir =>
            sort newest_first (foldl (scan_file userId dir) found (readdir dir))
        | None => found
        end
    | _ :: _ => found
    end in
  {| status := 200; body := JArr found |}.

End routes.

End Api.

(** ** Values used in the examples of the routes *)

(** Integers for the JSON numbers. *)
Definition sample_is_zero (x : Z) : bool := bool_decide (x = 0%Z).

(** A directory listing in the order of the map. *)
Definition sample_readdir (dir : gmap string (Api.File (Num := Z)))
  : list string :=
  (map_to_list dir).*1.

(** [new Date(n)] for a number of milliseconds; any other value is taken
    for an invalid date. *)
Definition sample_time_of (v : option (Api.Json (Num := Z))) : option Z :=
  match v with
  | Some (Api.JNum t) => Some t
  | _ => None
  end.

(** A report body without [userId] and with a type outside PDF, JSON and
    CSV. *)
Definition sample_req : Api.SaveBody (Num := Z) :=
  {| Api.reportName := Some (Api.JStr "weekly");
     Api.reportType := Some (Api.JStr "XML");
     Api.data := Some (Api.JObj [("totalPackets", Api.JNum 3%Z)]);
     Api.userId := None |}.

(** A directory with one report of user "alice". *)
Definition sample_dir : gmap string (Api.File (Num := Z)) :=
  {[ "local_5.json" :=
       Api.Parsed (Api.JObj [("userId", Api.JStr "alice");
                             ("createdAt", Api.JNum 5%Z)]) ]}.

(** A directory with three reports of user "alice", one of user "bob" and
    a file that does not parse. *)
Definition sample_archive : gmap string (Api.File (Num := Z)) :=
  <["local_5.json" :=
      Api.Parsed (Api.JObj [("userId", Api.JStr "alice");
                            ("createdAt", Api.JNum 5%Z)])]>
    (<["local_7.json" :=
         Api.Parsed (Api.JObj [("userId", Api.JStr "alice");
                               ("createdAt", Api.JNum 7%Z)])]>
       (<["local_8.json" :=
            Api.Parsed (Api.JObj [("userId", Api.JStr "bob");
                                  ("createdAt", Api.JNum 8%Z)])]>
          (<["local_9.json" :=
               Api.Parsed (Api.JObj [("userId", Api.JStr "alice");
                                     ("createdAt", Api.JNum 9%Z)])]>
             {[ "notes.json" := Api.Unparsable ]}))).

(** The steps of two uploads whose events are interleaved, the scope of the
    first, and the analysis of the two frames of the first. *)
Definition sample_steps : list Step :=
  [Call; Call; Emit 0 (OnPacket gre_frame); Emit 1 (OnPacket arp_frame);
   Emit 0 (OnPacket short_frame); Emit 1 OnError; Emit 0 (OnEnd "T")].

Definition sample_scope : Scope :=
  {| res_at := 0; totalPackets_at := 1; packetDetails_at := 2;
     threats_at := 3; connectionCounts_at := 4 |}.

Definition sample_result : AnalysisResult :=
  {| res_totalPackets := 2;
     res_packetDetails := decoded gre_frame;
     res_threats := [];
     timestamp := "T" |}.

(** * Properties *)

(** ** Dictionaries *)

Section obj.
Context {V : Type}.
Implicit Types (o : Js.obj V) (k : string) (v : V).

Lemma get_set_eq k v o : Js.get k (Js.set k v o) = Some v.
Proof.
  induction o as [|[k' v'] o IH]; simpl.
  - by rewrite decide_True.
  - destruct (decide (k = k')) as [->|Hne]; simpl.
    + by rewrite decide_True.
    + by rewrite decide_False.
Qed.

Lemma get_set_ne k k' v o : k ≠ k' → Js.get k' (Js.set k v o) = Js.get k' o.
Proof.
  intros Hne. induction o as [|[k0 v0] o IH]; simpl.
  - by rewrite decide_False.
  - destruct (decide (k = k0)) as [->|Hne0]; simpl.
    + by rewrite !decide_False.
    + by rewrite IH.
Qed.

Lemma get_None k o : Js.get k o = None ↔ k ∉ Js.keys o.
Proof.
  unfold Js.keys. induction o as [|[k' v'] o IH]; simpl.
  - split; [intros _; apply not_elem_of_nil | done].
  - rewrite not_elem_of_cons. destruct (decide (k = k')) as [->|Hne].
    + split; [done | by intros [? _]].
    + rewrite IH. tauto.
Qed.

Lemma get_Some_elem_of k v o : Js.get k o = Some v → (k, v) ∈ o.
Proof.
  induction o as [|[k' v'] o IH]; simpl; [done|].
  destruct (decide (k = k')) as [->|Hne].
  - intros [= ->]. apply elem_of_cons; by left.
  - intros H. apply elem_of_cons; right; auto.
Qed.

Lemma keys_set k v o :
  Js.keys (Js.set k v o) =
    match Js.get k o with
    | Some _ => Js.keys o
    | None => Js.keys o ++ [k]
    end.
Proof.
  unfold Js.keys. induction o as [|[k' v'] o IH]; csimpl; [done|].
  destruct (decide (k = k')) as [->|Hne]; csimpl; [done|].
  rewrite IH. by destruct (Js.get k o).
Qed.

Lemma keys_set_subseteq k v o : Js.keys o ⊆ Js.keys (Js.set k v o).
Proof.
  rewrite keys_set. destruct (Js.get k o); [done|].
  intros x Hx. apply elem_of_app; by left.
Qed.

Lemma NoDup_keys_set k v o : NoDup (Js.keys o) → NoDup (Js.keys (Js.set k v o)).
Proof.
  intros Hnd. rewrite keys_set. destruct (Js.get k o) eqn:Hget; [done|].
  apply NoDup_app. split_and!; [done| |apply NoDup_singleton].
  intros x Hx ->%list_elem_of_singleton. by apply get_None in Hget.
Qed.

Lemma elem_of_get k v o :
  NoDup (Js.keys o) → (k, v) ∈ o → Js.get k o = Some v.
Proof.
  unfold Js.keys. induction o as [|[k' v'] o IH]; csimpl.
  - by intros _ ?%elem_of_nil.
  - intros [Hnin Hnd]%NoDup_cons [[= -> ->]|Hin]%elem_of_cons.
    + by rewrite decide_True.
    + rewrite decide_False; [by apply IH|].
      intros ->. apply Hnin, list_elem_of_fmap. by exists (k', v).
Qed.

End obj.

(** ** Strings without blanks *)

Lemma no_space_app a b : no_space (a +:+ b) = no_space a && no_space b.
Proof.
  induction a as [|c a IH]; simpl; [done|].
  by destruct (decide (c = " "%char)).
Qed.

Lemma no_space_uint u : no_space (NilEmpty.string_of_uint u) = true.
Proof. induction u; simpl; done. Qed.

Lemma no_space_show_nat n : no_space (Js.show_nat n) = true.
Proof. apply no_space_uint. Qed.

Lemma no_space_tpl v : no_space (Js.tpl v) = true.
Proof. destruct v; [apply no_space_uint | done]. Qed.

Lemma no_space_address a b c d : no_space (address a b c d) = true.
Proof. unfold address. by rewrite !no_space_app, !no_space_tpl. Qed.

(** Two strings without blanks that are followed by a blank in the same
    text are the same string. *)
Lemma blank_delimits a a' r r' :
  no_space a → no_space a' →
  a +:+ String " " r = a' +:+ String " " r' → a = a'.
Proof.
  revert a'. induction a as [|c a IH]; intros [|c' a']; simpl; try done.
  - intros _ Ha' [= <- _]. by rewrite decide_True in Ha'.
  - intros Ha _ [= -> _]. by rewrite decide_True in Ha.
  - intros Ha Ha' [= -> Heq].
    destruct (decide (c' = " "%char)); [done|].
    f_equal. by apply IH.
Qed.

(** ** Findings name their subject *)

Lemma ddos_threat_names k k' c c' :
  no_space k → no_space k' → ddos_threat k c = ddos_threat k' c' → k = k'.
Proof.
  intros Hk Hk' [= Heq]. by apply blank_delimits in Heq.
Qed.

Lemma scan_threat_names s s' n n' :
  no_space s → no_space s' → scan_threat s n = scan_threat s' n' → s = s'.
Proof.
  intros Hs Hs' [= Heq]. by apply blank_delimits in Heq.
Qed.

(** ** The two loops of the "end" listener *)

Lemma ddos_loop_filter entries ts :
  ddos_loop entries ts =
    ts ++ ((λ e, ddos_threat e.1 e.2) <$> filter (λ e, 100 < e.2) entries).
Proof.
  revert ts. induction entries as [|[k c] entries IH]; intros ts; simpl.
  - by rewrite app_nil_r.
  - rewrite IH, filter_cons. simpl. destruct (decide (100 < c)); [|done].
    by rewrite <- app_assoc.
Qed.

Lemma scan_loop_filter entries ts :
  scan_loop entries ts =
    ts ++ ((λ e, scan_threat e.1 (size e.2))
             <$> filter (λ e, 20 < size e.2) entries).
Proof.
  revert ts. induction entries as [|[k c] entries IH]; intros ts; simpl.
  - by rewrite app_nil_r.
  - rewrite IH, filter_cons. simpl. destruct (decide (20 < size c)); [|done].
    by rewrite <- app_assoc.
Qed.

Lemma occurrences_app t ts1 ts2 :
  occurrences t (ts1 ++ ts2) = occurrences t ts1 + occurrences t ts2.
Proof. unfold occurrences. by rewrite filter_app, length_app. Qed.

Lemma occurrences_zero t ts : t ∉ ts → occurrences t ts = 0.
Proof.
  unfold occurrences. induction ts as [|t' ts IH]; [done|].
  intros [Hne Hnin]%not_elem_of_cons.
  rewrite filter_cons_False by done. auto.
Qed.

Lemma occurrences_pos t ts : t ∈ ts ↔ 0 < occurrences t ts.
Proof.
  unfold occurrences. split.
  - intros Hin. assert (t ∈ filter (λ t', t' = t) ts) as Hf
      by by apply list_elem_of_filter.
    destruct (filter _ ts); [by apply elem_of_nil in Hf | simpl; lia].
  - intros Hlen. destruct (filter (λ t', t' = t) ts) as [|x l] eqn:Hf;
      [simpl in Hlen; lia|].
    assert (x ∈ filter (λ t', t' = t) ts) as [-> ?]%list_elem_of_filter; [|done].
    rewrite Hf. apply elem_of_cons; by left.
Qed.

(** Findings made from the entries of a dictionary whose keys hold no
    blank: the finding of a key occurs once when its entry passes the
    test, and not at all otherwise. *)
Section findings.
Context {V : Type} (mk : string → V → Threat) (P : V → Prop).
Context `{!∀ v, Decision (P v)}.
Hypothesis mk_names : ∀ k k' v v',
  no_space k → no_space k' → mk k v = mk k' v' → k = k'.

Lemma occurrences_absent es k v :
  no_space k → Forall (λ k', no_space k') (Js.keys es) →
  Js.get k es = None → occurrences (mk k v) (findings mk P es) = 0.
Proof.
  intros Hk Hks Hget. apply occurrences_zero.
  intros ([k' v'] & Heq & [_ Hin]%list_elem_of_filter)%list_elem_of_fmap.
  simpl in Heq. assert (k' ∈ Js.keys es) as Hk'.
  { apply list_elem_of_fmap. by exists (k', v'). }
  apply mk_names in Heq; [|done|].
  - subst k'. by apply get_None in Hget.
  - by eapply Forall_forall in Hks.
Qed.

Lemma occurrences_present es k v :
  NoDup (Js.keys es) → Forall (λ k', no_space k') (Js.keys es) →
  Js.get k es = Some v →
  occurrences (mk k v) (findings mk P es) = if decide (P v) then 1 else 0.
Proof.
  unfold Js.keys. induction es as [|[k' v'] es IH]; [done|]. csimpl.
  intros [Hnin Hnd]%NoDup_cons [Hk' Hks]%Forall_cons Hget.
  destruct (decide (k = k')) as [->|Hne].
  - injection Hget as ->.
    assert (occurrences (mk k' v) (findings mk P es) = 0) as Htail.
    { apply occurrences_absent; [done..|]. by apply get_None. }
    unfold findings in *. rewrite filter_cons. simpl.
    destruct (decide (P v)); [|done].
    change (occurrences (mk k' v) ([mk k' v] ++ ((λ e, mk e.1 e.2) <$> filter (λ e, P e.2) es)) = 1).
    rewrite occurrences_app, Htail. unfold occurrences.
    by rewrite filter_cons_True.
  - specialize (IH Hnd Hks Hget). unfold findings in *.
    rewrite filter_cons. simpl. destruct (decide (P v')); [|done].
    change (occurrences (mk k v) ([mk k' v'] ++ ((λ e, mk e.1 e.2) <$> filter (λ e, P e.2) es)) = if decide (P v) then 1 else 0).
    rewrite occurrences_app, IH. unfold occurrences at 1.
    rewrite filter_cons_False; [done|].
    intros Heq. apply Hne. symmetry. apply mk_names in Heq; [done..|].
    apply get_Some_elem_of in Hget.
    eapply Forall_forall in Hks; [done|].
    apply list_elem_of_fmap. by exists (k, v).
Qed.

End findings.

Lemma elem_of_findings {V} (mk : string → V → Threat) (P : V → Prop)
    `{!∀ v, Decision (P v)} (es : Js.obj V) t :
  t ∈ findings mk P es ↔ ∃ k v, (k, v) ∈ es ∧ P v ∧ t = mk k v.
Proof.
  unfold findings. rewrite list_elem_of_fmap. split.
  - intros ([k v] & -> & [HP Hin]%list_elem_of_filter). by exists k, v.
  - intros (k & v & Hin & HP & ->). exists (k, v). split; [done|].
    by apply list_elem_of_filter.
Qed.

(** ** One "packet" event *)

Lemma protoName_protocol_name (v : option N) :
  (if decide (v = Some 6%N) then "TCP"
   else if decide (v = Some 17%N) then "UDP"
   else if decide (v = Some 1%N) then "ICMP"
   else "Unknown (" +:+ Js.tpl v +:+ ")") = protocol_name v.
Proof.
  destruct v as [n|]; [|done].
  repeat case_decide; simplify_eq; try done.
  destruct n as [|p]; [done|].
  do 5 (try (destruct p as [p|p|]; try done)).
Qed.

(** The three ways through the listener: the ethertype read throws and the
    [catch] clause logs; the ethertype is not IPv4; the frame is taken for
    IPv4 and recorded. *)
Lemma on_packet_cases st p :
((∃ err, Buffer.readUInt16BE (data p) 12 = inl err)
   ∧ decoded p = []
   ∧ on_packet st p
     = console_error "Error processing packet:" (incr_totalPackets st))
  ∨ (∃ e, Buffer.readUInt16BE (data p) 12 = inr e ∧ e ≠ 0x0800%N
     ∧ decoded p = []
     ∧ on_packet st p = incr_totalPackets st)
  ∨ (Buffer.readUInt16BE (data p) 12 = inr 0x0800%N
     ∧ ∃ d, decoded p = [d]
       ∧ srcIP d = address (Buffer.index (data p) 26) (Buffer.index (data p) 27)
                     (Buffer.index (data p) 28) (Buffer.index (data p) 29)
       ∧ dstIP d = address (Buffer.index (data p) 30) (Buffer.index (data p) 31)
                     (Buffer.index (data p) 32) (Buffer.index (data p) 33)
       ∧ protocol d = protocol_name (Buffer.index (data p) 23)
       ∧ packetSize d = packetLength p
       ∧ on_packet st p
         = assign_count (conn_key d)
             (Js.or_zero (Js.get (conn_key d) (connectionCounts st)) + 1)
             (push_detail d (incr_totalPackets st))).
Proof.
  unfold decoded, on_packet, packet_try.
  destruct (Buffer.readUInt16BE (data p) 12) as [err|e] eqn:Hread.
  - left. split_and!; [by exists err|done..].
  - right. destruct (decide (e = 0x0800%N)) as [->|Hne].
    + right. split; [done|]. eexists. split; [done|].
      simpl. rewrite protoName_protocol_name. done.
    + left. by exists e.
Qed.

Lemma decoded_at_most_one p : length (decoded p) ≤ 1.
Proof.
  destruct (on_packet_cases initial p)
    as [(_ & -> & _)|[(? & _ & _ & -> & _)|(_ & ? & -> & _)]]; simpl; lia.
Qed.

Lemma on_packet_totalPackets st p :
  totalPackets (on_packet st p) = totalPackets st + 1.
Proof.
  destruct (on_packet_cases st p)
    as [(_ & _ & ->)|[(? & _ & _ & _ & ->)|(_ & ? & _ & _ & _ & _ & _ & ->)]];
    done.
Qed.

Lemma on_packet_packetDetails st p :
  packetDetails (on_packet st p) = packetDetails st ++ decoded p.
Proof.
  destruct (on_packet_cases st p)
    as [(_ & -> & ->)|[(? & _ & _ & -> & ->)|(_ & ? & -> & _ & _ & _ & _ & ->)]];
    simpl; by rewrite ?app_nil_r.
Qed.

Lemma on_packet_threats st p : threats (on_packet st p) = threats st.
Proof.
  destruct (on_packet_cases st p)
    as [(_ & _ & ->)|[(? & _ & _ & _ & ->)|(_ & ? & _ & _ & _ & _ & _ & ->)]];
    done.
Qed.

Lemma on_packet_res st p : res (on_packet st p) = res st.
Proof.
  destruct (on_packet_cases st p)
    as [(_ & _ & ->)|[(? & _ & _ & _ & ->)|(_ & ? & _ & _ & _ & _ & _ & ->)]];
    done.
Qed.

Lemma on_packet_thrown st p : thrown (on_packet st p) = thrown st.
Proof.
  destruct (on_packet_cases st p)
    as [(_ & _ & ->)|[(? & _ & _ & _ & ->)|(_ & ? & _ & _ & _ & _ & _ & ->)]];
    done.
Qed.

(** What the listener does to [connectionCounts]: one assignment for each
    entry it appends to [packetDetails]. *)
Lemma on_packet_connectionCounts st p :
  connectionCounts (on_packet st p)
  = foldl count_packet (connectionCounts st) (decoded p).
Proof.
  destruct (on_packet_cases st p)
    as [(_ & -> & ->)|[(? & _ & _ & -> & ->)|(_ & ? & -> & _ & _ & _ & _ & ->)]];
    done.
Qed.

(** ** A run of "packet" events *)

Lemma foldl_on_packet_totalPackets st frames :
  totalPackets (foldl on_packet st frames) = totalPackets st + length frames.
Proof.
  revert st. induction frames as [|p frames IH]; intros st; simpl; [lia|].
  rewrite IH, on_packet_totalPackets. lia.
Qed.

Lemma foldl_on_packet_packetDetails st frames :
  packetDetails (foldl on_packet st frames)
  = packetDetails st ++ (frames ≫= decoded).
Proof.
  revert st. induction frames as [|p frames IH]; intros st; csimpl.
  - by rewrite app_nil_r.
  - by rewrite IH, on_packet_packetDetails, <- app_assoc.
Qed.

Lemma foldl_on_packet_threats st frames :
  threats (foldl on_packet st frames) = threats st.
Proof.
  revert st. induction frames as [|p frames IH]; intros st; simpl; [done|].
  by rewrite IH, on_packet_threats.
Qed.

Lemma foldl_on_packet_res st frames :
  res (foldl on_packet st frames) = res st.
Proof.
  revert st. induction frames as [|p frames IH]; intros st; simpl; [done|].
  by rewrite IH, on_packet_res.
Qed.

Lemma foldl_on_packet_thrown st frames :
  thrown (foldl on_packet st frames) = thrown st.
Proof.
  revert st. induction frames as [|p frames IH]; intros st; simpl; [done|].
  by rewrite IH, on_packet_thrown.
Qed.

(** ** The invariant of the per-request variables *)

Lemma packets_on_snoc key ds d :
  packets_on key (ds ++ [d])
  = packets_on key ds + (if decide (conn_key d = key) then 1 else 0).
Proof.
  unfold packets_on. rewrite filter_app, length_app, filter_cons, filter_nil.
  by case_decide.
Qed.

Lemma or_zero_counted key ds :
  Js.or_zero (counted key ds) = packets_on key ds.
Proof. unfold counted. by destruct (packets_on key ds). Qed.

Lemma consistent_initial : consistent initial.
Proof. split_and!; [apply NoDup_nil_2 | apply Forall_nil_2 | done]. Qed.

Lemma consistent_on_packet st p : consistent st → consistent (on_packet st p).
Proof.
  intros (Hnd & Haddr & Hget).
  destruct (on_packet_cases st p)
    as [(_ & _ & ->)|[(? & _ & _ & _ & ->)
                     |(_ & d & _ & Hsrc & Hdst & _ & _ & ->)]];
    [done..|].
  split_and!; simpl.
  - by apply NoDup_keys_set.
  - apply Forall_app. split; [done|]. apply Forall_singleton.
    rewrite Hsrc, Hdst, !no_space_address. done.
  - intros key. rewrite Hget, or_zero_counted.
    unfold counted. rewrite packets_on_snoc.
    destruct (decide (conn_key d = key)) as [<-|Hne].
    + rewrite get_set_eq. by rewrite Nat.add_1_r.
    + rewrite get_set_ne, Hget, Nat.add_0_r by done. done.
Qed.

Lemma consistent_foldl st frames :
  consistent st → consistent (foldl on_packet st frames).
Proof.
  revert st. induction frames as [|p frames IH]; intros st Hst; simpl; [done|].
  by apply IH, consistent_on_packet.
Qed.

Lemma consistent_after_packets frames : consistent (after_packets frames).
Proof. apply consistent_foldl, consistent_initial. Qed.

Lemma counted_Some key ds c :
  counted key ds = Some c → c = packets_on key ds ∧ 0 < c.
Proof.
  unfold counted. destruct (packets_on key ds); [done|].
  intros [= <-]. split; [done | lia].
Qed.

Lemma packets_on_pos key ds :
  0 < packets_on key ds → ∃ d, d ∈ ds ∧ conn_key d = key.
Proof.
  unfold packets_on. intros Hpos.
  destruct (filter (λ d, conn_key d = key) ds) as [|d l] eqn:Hf;
    [simpl in Hpos; lia|].
  assert (d ∈ filter (λ d, conn_key d = key) ds) as [? ?]%list_elem_of_filter
    by (rewrite Hf; apply elem_of_cons; by left).
  by exists d.
Qed.

(** In a consistent state every key is the key of a recorded packet
    detail, so it holds no blank. *)
Lemma consistent_key_recorded st key c :
  consistent st → Js.get key (connectionCounts st) = Some c →
  ∃ d, d ∈ packetDetails st ∧ conn_key d = key.
Proof.
  intros (_ & _ & Hget) Hkey. rewrite Hget in Hkey.
  apply counted_Some in Hkey as [-> Hpos]. by apply packets_on_pos.
Qed.

Lemma consistent_keys_no_space st :
  consistent st → Forall (λ k, no_space k) (Js.keys (connectionCounts st)).
Proof.
  intros Hst. apply Forall_forall. intros key Hin.
  destruct (Js.get key (connectionCounts st)) as [c|] eqn:Hget;
    [|by apply get_None in Hget].
  destruct (consistent_key_recorded _ _ _ Hst Hget) as (d & Hd & <-).
  destruct Hst as (_ & Haddr & _).
  eapply Forall_forall in Haddr as [Hs Hd']; [|done].
  unfold conn_key. rewrite !no_space_app.
  apply Is_true_true in Hs, Hd'. by rewrite Hs, Hd'.
Qed.

(** ** The dictionary of destination sets *)

Lemma get_scan_visit k o d :
  Js.get k (scan_visit o d) =
    if decide (srcIP d = k)
    then Some (default ∅ (Js.get k o) ∪ {[dstIP d]})
    else Js.get k o.
Proof.
  unfold scan_visit. destruct (decide (srcIP d = k)) as [<-|Hne].
  - by rewrite !get_set_eq.
  - by rewrite !get_set_ne.
Qed.

Lemma keys_scan_visit_subseteq o d : Js.keys o ⊆ Js.keys (scan_visit o d).
Proof.
  unfold scan_visit. etrans; [|apply keys_set_subseteq].
  apply keys_set_subseteq.
Qed.

Lemma NoDup_keys_scan_visit o d :
  NoDup (Js.keys o) → NoDup (Js.keys (scan_visit o d)).
Proof. intros Hnd. unfold scan_visit. by do 2 apply NoDup_keys_set. Qed.

Lemma NoDup_keys_foldl_scan_visit o ds :
  NoDup (Js.keys o) → NoDup (Js.keys (foldl scan_visit o ds)).
Proof.
  revert o. induction ds as [|d ds IH]; intros o Hnd; simpl; [done|].
  by apply IH, NoDup_keys_scan_visit.
Qed.

Lemma get_foldl_scan_visit k o ds :
  Js.get k (foldl scan_visit o ds) =
    match filter (λ d, srcIP d = k) ds with
    | [] => Js.get k o
    | l => Some (default ∅ (Js.get k o) ∪ list_to_set (dstIP <$> l))
    end.
Proof.
  revert o. induction ds as [|d ds IH]; intros o; simpl; [done|].
  rewrite IH, get_scan_visit, filter_cons.
  destruct (decide (srcIP d = k)) as [Heq|Hne]; [|done].
  destruct (filter (λ d, srcIP d = k) ds) as [|d' l]; csimpl; f_equal.
  - set_solver.
  - set_solver.
Qed.

Lemma size_list_to_set_remove_dups (l : list string) :
  size (list_to_set (C := gset string) l) = length (remove_dups l).
Proof.
  rewrite <- (size_list_to_set (C := gset string) (remove_dups l))
    by apply NoDup_remove_dups.
  f_equal. apply set_eq. intros x.
  by rewrite !elem_of_list_to_set, elem_of_remove_dups.
Qed.

(** The set stored for a source holds the destinations recorded for it;
    a source without a recorded packet detail has no entry. *)
Lemma get_portScanSources src ds :
  Js.get src (portScanSources ds) =
    match filter (λ d, srcIP d = src) ds with
    | [] => None
    | l => Some (list_to_set (dstIP <$> l))
    end.
Proof.
  unfold portScanSources. rewrite get_foldl_scan_visit. simpl.
  destruct (filter (λ d, srcIP d = src) ds); [done|].
  f_equal. set_solver.
Qed.

Lemma get_portScanSources_size src ds dsts :
  Js.get src (portScanSources ds) = Some dsts →
  size dsts = distinct_destinations src ds.
Proof.
  rewrite get_portScanSources. unfold distinct_destinations, destinations_of.
  destruct (filter (λ d, srcIP d = src) ds) as [|d l]; [done|].
  intros Heq.
  assert (dsts = list_to_set (dstIP <$> d :: l)) as -> by congruence.
  apply size_list_to_set_remove_dups.
Qed.

Lemma get_portScanSources_None src ds :
  Js.get src (portScanSources ds) = None → distinct_destinations src ds = 0.
Proof.
  rewrite get_portScanSources. unfold distinct_destinations, destinations_of.
  by destruct (filter (λ d, srcIP d = src) ds).
Qed.

Lemma keys_portScanSources_no_space ds :
  Forall (λ d, no_space (srcIP d) ∧ no_space (dstIP d)) ds →
  Forall (λ k, no_space k) (Js.keys (portScanSources ds)).
Proof.
  intros Haddr. apply Forall_forall. intros src Hin.
  destruct (Js.get src (portScanSources ds)) as [dsts|] eqn:Hget;
    [|by apply get_None in Hget].
  rewrite get_portScanSources in Hget.
  destruct (filter (λ d, srcIP d = src) ds) as [|d l] eqn:Hf; [done|].
  assert (d ∈ filter (λ d, srcIP d = src) ds) as [<- Hd]%list_elem_of_filter
    by (rewrite Hf; apply elem_of_cons; by left).
  by eapply Forall_forall in Haddr as [? _].
Qed.

(** ** The response of a run closed by "end" *)

Lemma res_analyze_End now frames :
  res (analyze now {| frames := frames; closing := End |}) =
    [Json {| res_totalPackets := length frames;
             res_packetDetails := frames ≫= decoded;
             res_threats :=
               findings ddos_threat (λ c, 100 < c)
                 (connectionCounts (after_packets frames))
               ++ findings (λ s dsts, scan_threat s (size dsts))
                    (λ dsts, 20 < size dsts)
                    (portScanSources (frames ≫= decoded));
             timestamp := now |}].
Proof.
  unfold analyze, on_end, send, after_packets, Js.entries. simpl.
  rewrite foldl_on_packet_res. simpl.
  rewrite foldl_on_packet_totalPackets,
    foldl_on_packet_packetDetails, foldl_on_packet_threats.
  rewrite scan_loop_filter, ddos_loop_filter. done.
Qed.

Lemma ddos_findings_no_scan s n (es : Js.obj nat) :
  occurrences (scan_threat s n) (findings ddos_threat (λ c, 100 < c) es) = 0.
Proof.
  apply occurrences_zero. unfold findings.
  by intros (e & Heq & _)%list_elem_of_fmap.
Qed.

Lemma scan_findings_no_ddos k c (es : Js.obj (gset string)) :
  occurrences (ddos_threat k c)
    (findings (λ s dsts, scan_threat s (size dsts))
       (λ dsts, 20 < size dsts) es) = 0.
Proof.
  apply occurrences_zero. unfold findings.
  by intros (e & Heq & _)%list_elem_of_fmap.
Qed.

(** ** Findings of the "end" listener *)

(** C1.  In a run closed by "end", for every connection key held by
    [connectionCounts] with its counter, the "Potential DDoS" finding that
    names the key and the counter is in the returned [threats] if and only
    if the counter is greater than 100, and then it is there exactly once:
    a counter of 100 gives no finding, a counter of 101 gives one.  Every
    "Potential DDoS" finding returned is the finding of such an entry. *)
Theorem ddos_finding_iff_over_100
    (frames : list Packet) (now : string) (key : string) (count : nat) :
  Js.get key (connectionCounts (after_packets frames)) = Some count →
  ∃ r, res (analyze now {| frames := frames; closing := End |}) = [Json r]
       ∧ (ddos_threat key count ∈ res_threats r ↔ 100 < count)
       ∧ occurrences (ddos_threat key count) (res_threats r)
         = (if decide (100 < count) then 1 else 0)
       ∧ Forall (λ t, type t = "Potential DDoS" →
                      ∃ k c, Js.get k (connectionCounts (after_packets frames))
                             = Some c
                             ∧ 100 < c ∧ t = ddos_threat k c)
           (res_threats r).
Proof.
  intros Hget. eexists. split; [apply res_analyze_End|]. simpl.
  pose proof (consistent_after_packets frames) as Hst.
  assert (occurrences (ddos_threat key count)
            (findings ddos_threat (λ c, 100 < c)
               (connectionCounts (after_packets frames))
             ++ findings (λ s dsts, scan_threat s (size dsts))
                  (λ dsts, 20 < size dsts)
                  (portScanSources (frames ≫= decoded)))
          = if decide (100 < count) then 1 else 0) as Hocc.
  { rewrite occurrences_app, scan_findings_no_ddos, Nat.add_0_r.
    apply (occurrences_present ddos_threat (λ c, 100 < c)); [|by destruct Hst| |done].
    - intros k k' c c'. apply ddos_threat_names.
    - by apply consistent_keys_no_space. }
  split_and!; [|done|].
  - rewrite occurrences_pos, Hocc. case_decide; split; lia.
  - apply Forall_app. split; apply Forall_forall; intros t.
    + intros (k & c & Hin & Hc & ->)%elem_of_findings _.
      exists k, c. split_and!; [|done..].
      destruct Hst as (Hnd & _). by apply elem_of_get.
    + by intros (s & dsts & _ & _ & ->)%elem_of_findings.
Qed.

Lemma ddos_finding_iff_over_100_witness :
  Js.get "10.0.0.1->10.0.0.2" (connectionCounts (after_packets (flood 101)))
  = Some 101
  ∧ ∃ r, res (analyze "T" {| frames := flood 101; closing := End |}) = [Json r]
         ∧ (ddos_threat "10.0.0.1->10.0.0.2" 101 ∈ res_threats r ↔ 100 < 101)
         ∧ occurrences (ddos_threat "10.0.0.1->10.0.0.2" 101) (res_threats r)
           = (if decide (100 < 101) then 1 else 0)
         ∧ Forall (λ t, type t = "Potential DDoS" →
                        ∃ k c, Js.get k
                                 (connectionCounts (after_packets (flood 101)))
                               = Some c
                               ∧ 100 < c ∧ t = ddos_threat k c)
             (res_threats r).
Proof.
  split; [vm_compute; reflexivity|].
  apply (ddos_finding_iff_over_100 (flood 101) "T" "10.0.0.1->10.0.0.2" 101).
  vm_compute; reflexivity.
Defined.

(** C2.  In a run closed by "end", for every source address, the
    "Potential Port Scan" finding that names the address and the number of
    distinct destination addresses recorded for it is in the returned
    [threats] if and only if that number is greater than 20, and then it is
    there exactly once: 20 destinations give no finding, 21 give one.
    Every "Potential Port Scan" finding returned is the finding of a source
    with more than 20 distinct destinations. *)
Theorem scan_finding_iff_over_20
    (frames : list Packet) (now : string) (a b c d : option N) :
  ∃ r, res (analyze now {| frames := frames; closing := End |}) = [Json r]
       ∧ (scan_threat (address a b c d)
            (distinct_destinations (address a b c d) (res_packetDetails r))
          ∈ res_threats r
          ↔ 20 < distinct_destinations (address a b c d) (res_packetDetails r))
       ∧ occurrences
           (scan_threat (address a b c d)
              (distinct_destinations (address a b c d) (res_packetDetails r)))
           (res_threats r)
         = (if decide (20 < distinct_destinations (address a b c d)
                               (res_packetDetails r))
            then 1 else 0)
       ∧ Forall (λ t, type t = "Potential Port Scan" →
                      ∃ src, 20 < distinct_destinations src (res_packetDetails r)
                             ∧ t = scan_threat src
                                     (distinct_destinations src
                                        (res_packetDetails r)))
           (res_threats r).
Proof.
  eexists. split; [apply res_analyze_End|]. simpl.
  set (src := address a b c d). set (ds := frames ≫= decoded).
  pose proof (consistent_after_packets frames) as (_ & Haddr & _).
  unfold after_packets in Haddr.
  rewrite foldl_on_packet_packetDetails in Haddr. simpl in Haddr.
  fold ds in Haddr.
  assert (no_space src) as Hsrc by (apply Is_true_true, no_space_address).
  assert (NoDup (Js.keys (portScanSources ds))) as Hnd
    by apply NoDup_keys_foldl_scan_visit, NoDup_nil_2.
  assert (occurrences (scan_threat src (distinct_destinations src ds))
            (findings ddos_threat (λ c, 100 < c)
               (connectionCounts (after_packets frames))
             ++ findings (λ s dsts, scan_threat s (size dsts))
                  (λ dsts, 20 < size dsts) (portScanSources ds))
          = if decide (20 < distinct_destinations src ds) then 1 else 0)
    as Hocc.
  { rewrite occurrences_app, ddos_findings_no_scan. simpl.
    destruct (Js.get src (portScanSources ds)) as [dsts|] eqn:Hget.
    - rewrite <- (get_portScanSources_size _ _ _ Hget).
      apply (@occurrences_present (gset string)
               (λ s dsts, scan_threat s (size dsts))
               (λ dsts, 20 < size dsts) (λ dsts, decide (20 < size dsts)));
        [|done| |done].
      + intros k k' v v'. apply scan_threat_names.
      + by apply keys_portScanSources_no_space.
    - rewrite (get_portScanSources_None _ _ Hget).
      rewrite decide_False by lia.
      pose proof (@occurrences_absent (gset string)
               (λ s dsts, scan_threat s (size dsts))
               (λ dsts, 20 < size dsts) (λ dsts, decide (20 < size dsts)))
        as Habs.
      specialize (Habs (λ k k' v v', scan_threat_names k k' _ _)
                    (portScanSources ds) src (∅ : gset string) Hsrc).
      cbv beta in Habs. rewrite size_empty in Habs. apply Habs; [|done].
      by apply keys_portScanSources_no_space. }
  split_and!; [|done|].
  - rewrite occurrences_pos, Hocc. case_decide; split; lia.
  - apply Forall_app. split; apply Forall_forall; intros t.
    + by intros (k & n & _ & _ & ->)%elem_of_findings.
    + intros (s & dsts & Hin & Hsize & ->)%elem_of_findings _.
      apply elem_of_get in Hin; [|done].
      apply get_portScanSources_size in Hin. rewrite Hin in Hsize |- *.
      by exists s.
Qed.

(** ** Counting frames *)

Lemma length_bind_decoded frames : length (frames ≫= decoded) ≤ length frames.
Proof.
  induction frames as [|p frames IH]; csimpl; [done|].
  rewrite length_app. pose proof (decoded_at_most_one p). lia.
Qed.

(** C3.  [totalPackets] is the number of "packet" events, whether or not
    the frame was taken for IPv4, and [packetDetails] is never longer; a run
    closed by "end" returns that [totalPackets] and that [packetDetails]. *)
Theorem totalPackets_counts_frames (frames : list Packet) (now : string) :
  totalPackets (after_packets frames) = length frames
  ∧ length (packetDetails (after_packets frames))
    ≤ totalPackets (after_packets frames)
  ∧ ∃ r, res (analyze now {| frames := frames; closing := End |}) = [Json r]
         ∧ res_totalPackets r = length frames
         ∧ res_packetDetails r = packetDetails (after_packets frames)
         ∧ length (res_packetDetails r) ≤ res_totalPackets r.
Proof.
  unfold after_packets.
  rewrite foldl_on_packet_totalPackets, foldl_on_packet_packetDetails. simpl.
  split_and!; [done|apply length_bind_decoded|].
  eexists. split; [apply res_analyze_End|]. simpl.
  split_and!; [done..|apply length_bind_decoded].
Qed.

(** ** Scenarios *)

Example three_tcp_frames :
  res (analyze "T" {| frames := flood 3; closing := End |})
  = [Json {| res_totalPackets := 3;
             res_packetDetails :=
               replicate 3 {| srcIP := "10.0.0.1"; dstIP := "10.0.0.2";
                              protocol := "TCP"; packetSize := 34 |};
             res_threats := [];
             timestamp := "T" |}].
Proof. vm_compute. reflexivity. Qed.

Example flood_150_one_finding :
  response_threats <$> res (analyze "T" {| frames := flood 150; closing := End |})
  = [[ {| type := "Potential DDoS";
          description := "High traffic detected on connection 10.0.0.1->10.0.0.2 with 150 packets." |} ]].
Proof. vm_compute. reflexivity. Qed.

Example sweep_25_one_finding :
  response_threats <$> res (analyze "T" {| frames := sweep 25; closing := End |})
  = [[ {| type := "Potential Port Scan";
          description := "Source IP 10.0.0.1 connected to 25 unique destinations." |} ]].
Proof. vm_compute. reflexivity. Qed.

Example short_frame_counted :
  on_packet initial short_frame
  = console_error "Error processing packet:" (incr_totalPackets initial).
Proof. vm_compute. reflexivity. Qed.

Example flood_100_no_finding :
  response_threats <$> res (analyze "T" {| frames := flood 100; closing := End |})
  = [[]].
Proof. vm_compute. reflexivity. Qed.

Example flood_101_one_finding :
  response_threats <$> res (analyze "T" {| frames := flood 101; closing := End |})
  = [[ {| type := "Potential DDoS";
          description := "High traffic detected on connection 10.0.0.1->10.0.0.2 with 101 packets." |} ]].
Proof. vm_compute. reflexivity. Qed.

Example sweep_20_no_finding :
  response_threats <$> res (analyze "T" {| frames := sweep 20; closing := End |})
  = [[]].
Proof. vm_compute. reflexivity. Qed.

Example sweep_21_one_finding :
  response_threats <$> res (analyze "T" {| frames := sweep 21; closing := End |})
  = [[ {| type := "Potential Port Scan";
          description := "Source IP 10.0.0.1 connected to 21 unique destinations." |} ]].
Proof. vm_compute. reflexivity. Qed.

(** ** Frames that are not taken for IPv4 *)

Lemma readUInt16BE_ethertype_field p :
  Buffer.readUInt16BE (data p) 12 =
    match ethertype_field p with
    | Some e => inr e
    | None =>
        if decide (length (data p) < 2) then inl Js.ERR_BUFFER_OUT_OF_BOUNDS
        else inl (Js.ERR_OUT_OF_RANGE 12)
    end.
Proof.
  unfold Buffer.readUInt16BE, Buffer.index, ethertype_field.
  destruct (data p !! 12), (data p !! 13); done.
Qed.

Lemma ethertype_field_short p : length (data p) < 14 → ethertype_field p = None.
Proof.
  intros Hlen. unfold ethertype_field.
  destruct (data p !! 12); [|done].
  by rewrite (lookup_ge_None_2 (data p) 13) by lia.
Qed.

(** C5.  A frame too short to hold the ethertype field, or whose ethertype
    is not 0x0800, goes through the listener without an exception leaving
    it: the listener returns, having counted the frame in [totalPackets]
    and at most written a log line; it appends nothing to [packetDetails]
    and assigns nothing in [connectionCounts]. *)
Theorem unrecognized_frame_counted (st : ReqState) (p : Packet) :
  length (data p) < 14 ∨ (∃ e, ethertype_field p = Some e ∧ e ≠ 0x0800%N) →
  (on_packet st p = incr_totalPackets st
   ∨ on_packet st p
     = console_error "Error processing packet:" (incr_totalPackets st))
  ∧ totalPackets (on_packet st p) = totalPackets st + 1
  ∧ packetDetails (on_packet st p) = packetDetails st
  ∧ connectionCounts (on_packet st p) = connectionCounts st
  ∧ decoded p = [].
Proof.
  intros Hp.
  assert (Buffer.readUInt16BE (data p) 12 ≠ inr 0x0800%N) as Hread.
  { rewrite readUInt16BE_ethertype_field.
    destruct Hp as [Hlen|(e & -> & Hne)]; [|congruence].
    rewrite ethertype_field_short by done. by case_decide. }
  destruct (on_packet_cases st p)
    as [(_ & Hdec & Hst)|[(e & _ & _ & Hdec & Hst)|(? & _)]]; [..|done];
    rewrite Hst; split_and!; auto.
Qed.

Lemma unrecognized_frame_counted_witness :
  (length (data short_frame) < 14
   ∨ (∃ e, ethertype_field short_frame = Some e ∧ e ≠ 0x0800%N))
  ∧ (on_packet initial short_frame = incr_totalPackets initial
     ∨ on_packet initial short_frame
       = console_error "Error processing packet:" (incr_totalPackets initial))
  ∧ totalPackets (on_packet initial short_frame) = totalPackets initial + 1
  ∧ packetDetails (on_packet initial short_frame) = packetDetails initial
  ∧ connectionCounts (on_packet initial short_frame) = connectionCounts initial
  ∧ decoded short_frame = [].
Proof.
  assert (length (data short_frame) < 14) as Hlen by (simpl; lia).
  split; [by left|].
  apply (unrecognized_frame_counted initial short_frame). by left.
Defined.

Example arp_frame_counted :
  on_packet initial arp_frame = incr_totalPackets initial.
Proof. vm_compute. reflexivity. Qed.

(** ** A run closed by "error" *)

Lemma res_analyze_Error now frames :
  res (analyze now {| frames := frames; closing := Error |})
  = [JsonError 500 "Failed to parse PCAP file."].
Proof.
  unfold analyze, on_error, send, after_packets. simpl.
  by rewrite foldl_on_packet_res.
Qed.

(** ** Events after the response *)

Lemma foldl_deliver_packets st frames :
  thrown st = [] →
  foldl deliver st (OnPacket <$> frames) = foldl on_packet st frames.
Proof.
  revert st. induction frames as [|p frames IH]; intros st Hst; [done|].
  csimpl. unfold deliver at 2. rewrite Hst. simpl.
  apply IH. by rewrite on_packet_thrown.
Qed.

Lemma res_send_sent r st : res st ≠ [] → res (send r st) = res st.
Proof. unfold send. by destruct (res st) eqn:Hres. Qed.

(** Once a response is written, no event changes it. *)
Lemma res_deliver_sent st e : res st ≠ [] → res (deliver st e) = res st.
Proof.
  intros Hsent. unfold deliver. destruct (thrown st); [|done].
  destruct e as [p|now|]; simpl.
  - apply on_packet_res.
  - unfold on_end. by rewrite res_send_sent.
  - unfold on_error. by rewrite res_send_sent.
Qed.

Lemma res_foldl_deliver_sent st es :
  res st ≠ [] → res (foldl deliver st es) = res st.
Proof.
  revert st. induction es as [|e es IH]; intros st Hsent; simpl; [done|].
  rewrite IH; rewrite res_deliver_sent; done.
Qed.

Lemma thrown_after_packets frames : thrown (after_packets frames) = [].
Proof. unfold after_packets. by rewrite foldl_on_packet_thrown. Qed.

Lemma res_after_packets frames : res (after_packets frames) = [].
Proof. unfold after_packets. by rewrite foldl_on_packet_res. Qed.

Lemma foldl_deliver_after_packets frames es :
  foldl deliver initial ((OnPacket <$> frames) ++ es)
  = foldl deliver (after_packets frames) es.
Proof. by rewrite foldl_app, foldl_deliver_packets. Qed.

(** C6.  When the parser emits "error" after any number of frames, the
    caller gets one response, the status-500 error, and no analysis result,
    whatever the parser emits afterwards: an "end" event that follows finds
    the response written and adds none.  At the point of the failure
    [totalPackets], [packetDetails] and [connectionCounts] hold what the
    frames put there, and the "error" listener leaves them as they are. *)
Theorem parse_error_discards_results (frames : list Packet) (now : string) :
  res (analyze now {| frames := frames; closing := Error |})
  = [JsonError 500 "Failed to parse PCAP file."]
  ∧ Forall (λ r, ∀ a, r ≠ Json a)
      (res (analyze now {| frames := frames; closing := Error |}))
  ∧ totalPackets (analyze now {| frames := frames; closing := Error |})
    = length frames
  ∧ packetDetails (analyze now {| frames := frames; closing := Error |})
    = frames ≫= decoded
  ∧ connectionCounts (analyze now {| frames := frames; closing := Error |})
    = connectionCounts (after_packets frames)
  ∧ consistent (analyze now {| frames := frames; closing := Error |})
  ∧ (∀ rest : list Event,
       res (foldl deliver initial ((OnPacket <$> frames) ++ OnError :: rest))
       = [JsonError 500 "Failed to parse PCAP file."]
       ∧ ∀ a, Json a ∉ res (foldl deliver initial
                              ((OnPacket <$> frames) ++ OnError :: rest)))
  ∧ foldl deliver initial (OnPacket <$> frames) = after_packets frames
  ∧ res (after_packets frames) = []
  ∧ totalPackets (after_packets frames) = length frames
  ∧ packetDetails (after_packets frames) = frames ≫= decoded
  ∧ consistent (after_packets frames).
Proof.
  rewrite res_analyze_Error.
  assert (∀ rest : list Event,
            res (foldl deliver initial
                   ((OnPacket <$> frames) ++ OnError :: rest))
            = [JsonError 500 "Failed to parse PCAP file."]) as Hrest.
  { intros rest. rewrite foldl_deliver_after_packets. simpl.
    unfold deliver at 2. rewrite thrown_after_packets. simpl.
    rewrite res_foldl_deliver_sent;
      unfold on_error, send; simpl; rewrite res_after_packets; done. }
  unfold analyze, on_error, send. simpl. rewrite res_after_packets. simpl.
  assert (totalPackets (after_packets frames) = length frames) as Htotal
    by (unfold after_packets; by rewrite foldl_on_packet_totalPackets).
  assert (packetDetails (after_packets frames) = frames ≫= decoded) as Hdetails
    by (unfold after_packets; by rewrite foldl_on_packet_packetDetails).
  pose proof (consistent_after_packets frames) as Hconsistent.
  split_and!; try done.
  - by apply Forall_singleton.
  - intros rest. split; [apply Hrest|].
    intros a. rewrite Hrest. by intros ?%list_elem_of_singleton.
  - by apply foldl_deliver_packets.
Qed.

(** An "error" followed by "end", as for a file whose header the parser
    refuses: the response is the error, and the "end" listener throws. *)
Example error_then_end :
  res (foldl deliver initial [OnError; OnEnd "T"])
  = [JsonError 500 "Failed to parse PCAP file."]
  ∧ thrown (foldl deliver initial [OnError; OnEnd "T"])
    = [Js.ERR_HTTP_HEADERS_SENT]
  ∧ res (foldl deliver initial
           [OnPacket (ipv4_frame 6 [10; 0; 0; 1] [10; 0; 0; 2]); OnError;
            OnEnd "T"; OnPacket arp_frame])
    = [JsonError 500 "Failed to parse PCAP file."].
Proof. split_and!; vm_compute; reflexivity. Qed.

(** ** The aggregation only grows *)

Lemma or_zero_Some v : Js.or_zero (Some v) = v.
Proof. by destruct v. Qed.

Lemma count_packet_le key cc d :
  Js.or_zero (Js.get key cc) ≤ Js.or_zero (Js.get key (count_packet cc d)).
Proof.
  unfold count_packet. destruct (decide (conn_key d = key)) as [<-|Hne].
  - rewrite get_set_eq, or_zero_Some. lia.
  - by rewrite get_set_ne.
Qed.

Lemma total_count_set key v (o : Js.obj nat) :
  total_count (Js.set key v o) + Js.or_zero (Js.get key o) = total_count o + v.
Proof.
  unfold total_count. induction o as [|[k' v'] o IH]; csimpl; [lia|].
  destruct (decide (key = k')) as [Heq|Hne]; csimpl.
  - destruct v'; lia.
  - lia.
Qed.

Lemma count_packet_total cc d :
  total_count (count_packet cc d) = total_count cc + 1.
Proof.
  unfold count_packet.
  pose proof (total_count_set (conn_key d)
                (Js.or_zero (Js.get (conn_key d) cc) + 1) cc).
  lia.
Qed.

Lemma foldl_count_packet_le key cc ds :
  Js.or_zero (Js.get key cc)
  ≤ Js.or_zero (Js.get key (foldl count_packet cc ds)).
Proof.
  revert cc. induction ds as [|d ds IH]; intros cc; simpl; [done|].
  etrans; [apply (count_packet_le key cc d)|apply IH].
Qed.

Lemma foldl_count_packet_keys cc ds :
  Js.keys cc ⊆ Js.keys (foldl count_packet cc ds).
Proof.
  revert cc. induction ds as [|d ds IH]; intros cc; simpl; [done|].
  etrans; [apply keys_set_subseteq|apply IH].
Qed.

Lemma foldl_count_packet_total cc ds :
  total_count (foldl count_packet cc ds) = total_count cc + length ds.
Proof.
  revert cc. induction ds as [|d ds IH]; intros cc; simpl; [lia|].
  rewrite IH, count_packet_total. lia.
Qed.

Lemma scan_visit_grows src o d :
  default ∅ (Js.get src o) ⊆ default ∅ (Js.get src (scan_visit o d)).
Proof.
  rewrite get_scan_visit. case_decide; [|done]. simpl. set_solver.
Qed.

Lemma foldl_count_packet_get key cc ds :
  Js.or_zero (Js.get key (foldl count_packet cc ds))
  = Js.or_zero (Js.get key cc) + packets_on key ds.
Proof.
  revert cc. induction ds as [|d ds IH]; intros cc; simpl.
  - unfold packets_on. simpl. lia.
  - rewrite IH. unfold packets_on. rewrite filter_cons. unfold count_packet.
    destruct (decide (conn_key d = key)) as [<-|Hne].
    + rewrite get_set_eq, or_zero_Some. simpl. lia.
    + rewrite get_set_ne by done. lia.
Qed.

Lemma scan_visit_adds src o d :
  default ∅ (Js.get src (scan_visit o d))
  = if decide (srcIP d = src) then default ∅ (Js.get src o) ∪ {[dstIP d]}
    else default ∅ (Js.get src o).
Proof. rewrite get_scan_visit. by case_decide. Qed.

(** C7.  The aggregation is changed once for each entry appended to
    [packetDetails] and only upwards.  A "packet" event adds to the counter
    of each key the number of entries it appends with that key, one for the
    key of a recorded frame and nothing for any other: it lowers no counter
    of [connectionCounts], removes no key, and raises the sum of the
    counters by the number of entries it appends.  A turn of the loop that
    builds the destination sets adds the destination of the packet detail
    to the set of its source, which has an entry afterwards, and leaves the
    sets of the other sources as they are: it shrinks no set and removes no
    source; so the set of a source ends as the set of the destinations of
    its packet details.  After any run every entry of [connectionCounts]
    has a positive counter, equal to the number of recorded packet details
    with that key, so that at least one recorded packet detail has the
    key. *)
Theorem aggregation_grows_once_per_packet :
  (∀ st p key,
     Js.or_zero (Js.get key (connectionCounts st))
     ≤ Js.or_zero (Js.get key (connectionCounts (on_packet st p))))
  ∧ (∀ st p,
       Js.keys (connectionCounts st)
       ⊆ Js.keys (connectionCounts (on_packet st p)))
  ∧ (∀ st p,
       total_count (connectionCounts (on_packet st p))
       = total_count (connectionCounts st) + length (decoded p))
  ∧ (∀ o d src,
       default ∅ (Js.get src o) ⊆ default ∅ (Js.get src (scan_visit o d)))
  ∧ (∀ o d, Js.keys o ⊆ Js.keys (scan_visit o d))
  ∧ (∀ frames,
       Forall (λ e, 0 < e.2
                    ∧ e.2 = packets_on e.1 (packetDetails (after_packets frames))
                    ∧ ∃ d, d ∈ packetDetails (after_packets frames)
                           ∧ conn_key d = e.1)
         (Js.entries (connectionCounts (after_packets frames))))
  ∧ (∀ st p key,
       Js.or_zero (Js.get key (connectionCounts (on_packet st p)))
       = Js.or_zero (Js.get key (connectionCounts st))
         + packets_on key (decoded p))
  ∧ (∀ st p,
       Forall (λ d, Js.get (conn_key d) (connectionCounts (on_packet st p))
                    = Some (Js.or_zero
                              (Js.get (conn_key d) (connectionCounts st)) + 1))
         (decoded p))
  ∧ (∀ o d src,
       default ∅ (Js.get src (scan_visit o d))
       = if decide (srcIP d = src)
         then default ∅ (Js.get src o) ∪ {[dstIP d]}
         else default ∅ (Js.get src o))
  ∧ (∀ o d, ∃ dsts, Js.get (srcIP d) (scan_visit o d) = Some dsts
                    ∧ dstIP d ∈ dsts)
  ∧ (∀ ds src,
       default ∅ (Js.get src (portScanSources ds))
       = list_to_set (dstIP <$> filter (λ d, srcIP d = src) ds)).
Proof.
  split_and!.
  - intros st p key. rewrite on_packet_connectionCounts.
    apply foldl_count_packet_le.
  - intros st p. rewrite on_packet_connectionCounts.
    apply foldl_count_packet_keys.
  - intros st p. rewrite on_packet_connectionCounts.
    apply foldl_count_packet_total.
  - intros o d src. apply scan_visit_grows.
  - intros o d. apply keys_scan_visit_subseteq.
  - intros frames. pose proof (consistent_after_packets frames) as Hst.
    apply Forall_forall. intros [key c] Hin. simpl.
    assert (Js.get key (connectionCounts (after_packets frames)) = Some c)
      as Hget by (destruct Hst as (Hnd & _); by apply elem_of_get).
    split_and!.
    + destruct Hst as (_ & _ & Hcount). rewrite Hcount in Hget.
      by apply counted_Some in Hget as [_ ?].
    + destruct Hst as (_ & _ & Hcount). rewrite Hcount in Hget.
      by apply counted_Some in Hget as [? _].
    + by eapply consistent_key_recorded.
  - intros st p key. rewrite on_packet_connectionCounts.
    apply foldl_count_packet_get.
  - intros st p. rewrite on_packet_connectionCounts.
    pose proof (decoded_at_most_one p) as Hlen.
    destruct (decoded p) as [|d [|d' l]]; [apply Forall_nil_2| |simpl in Hlen; lia].
    apply Forall_singleton. simpl. unfold count_packet. by rewrite get_set_eq.
  - intros o d src. apply scan_visit_adds.
  - intros o d. eexists. rewrite get_scan_visit, decide_True by done.
    split; [done|]. set_solver.
  - intros ds src. rewrite get_portScanSources.
    by destruct (filter (λ d, srcIP d = src) ds).
Qed.

(** ** Decoding *)

(** C8.  What a "packet" event appends to [packetDetails] depends on the
    frame alone: from any state the listener appends the entries it appends
    from the initial state, at most one; so the [packetDetails] of a run is
    the concatenation of what each frame decodes to, and a frame decodes to
    the same entries wherever it stands among the others. *)
Theorem decoding_is_stateless :
  (∀ st p, packetDetails (on_packet st p) = packetDetails st ++ decoded p)
  ∧ (∀ p, length (decoded p) ≤ 1)
  ∧ (∀ st1 st2 p,
       drop (length (packetDetails st1)) (packetDetails (on_packet st1 p))
       = drop (length (packetDetails st2)) (packetDetails (on_packet st2 p)))
  ∧ (∀ frames, packetDetails (after_packets frames) = frames ≫= decoded)
  ∧ (∀ before before' p,
       drop (length (packetDetails (after_packets before)))
         (packetDetails (after_packets (before ++ [p])))
       = drop (length (packetDetails (after_packets before')))
           (packetDetails (after_packets (before' ++ [p])))).
Proof.
  split_and!.
  - apply on_packet_packetDetails.
  - apply decoded_at_most_one.
  - intros st1 st2 p. by rewrite !on_packet_packetDetails, !drop_app_length.
  - intros frames. unfold after_packets.
    by rewrite foldl_on_packet_packetDetails.
  - intros before before' p. unfold after_packets.
    rewrite !foldl_snoc, !on_packet_packetDetails. by rewrite !drop_app_length.
Qed.

(** C9.  There is a frame of 14 bytes whose ethertype field reads 0x0800
    and which the listener records all the same.  From any state, the
    listener leaves [packetDetails] with one more entry, whose two addresses
    are made of the text "undefined" and whose protocol name is made from an
    undefined protocol byte; it leaves [connectionCounts] with the counter
    of the key made of these addresses one higher; the frame is counted in
    [totalPackets]; no error is logged and nothing is thrown.  An upload of
    this frame alone is answered with this entry in [packetDetails]. *)
Theorem truncated_ipv4_frame_is_recorded :
  ∃ p, length (data p) = 14
       ∧ ethertype_field p = Some 0x0800%N
       ∧ (∀ st,
            on_packet st p
            = assign_count
                "undefined.undefined.undefined.undefined->undefined.undefined.undefined.undefined"
                (Js.or_zero
                   (Js.get
                      "undefined.undefined.undefined.undefined->undefined.undefined.undefined.undefined"
                      (connectionCounts st)) + 1)
                (push_detail
                   {| srcIP := "undefined.undefined.undefined.undefined";
                      dstIP := "undefined.undefined.undefined.undefined";
                      protocol := "Unknown (undefined)";
                      packetSize := 14 |}
                   (incr_totalPackets st))
            ∧ console (on_packet st p) = console st
            ∧ packetDetails (on_packet st p)
              = packetDetails st
                ++ [ {| srcIP := "undefined.undefined.undefined.undefined";
                        dstIP := "undefined.undefined.undefined.undefined";
                        protocol := "Unknown (undefined)";
                        packetSize := 14 |} ]
            ∧ connectionCounts (on_packet st p)
              = Js.set
                  "undefined.undefined.undefined.undefined->undefined.undefined.undefined.undefined"
                  (Js.or_zero
                     (Js.get
                        "undefined.undefined.undefined.undefined->undefined.undefined.undefined.undefined"
                        (connectionCounts st)) + 1)
                  (connectionCounts st)
            ∧ Js.get
                "undefined.undefined.undefined.undefined->undefined.undefined.undefined.undefined"
                (connectionCounts (on_packet st p))
              = Some (Js.or_zero
                        (Js.get
                           "undefined.undefined.undefined.undefined->undefined.undefined.undefined.undefined"
                           (connectionCounts st)) + 1)
            ∧ totalPackets (on_packet st p) = totalPackets st + 1
            ∧ thrown (on_packet st p) = thrown st
            ∧ res (on_packet st p) = res st)
       ∧ ∀ now,
           res (analyze now {| frames := [p]; closing := End |})
           = [Json {| res_totalPackets := 1;
                      res_packetDetails :=
                        [ {| srcIP := "undefined.undefined.undefined.undefined";
                             dstIP := "undefined.undefined.undefined.undefined";
                             protocol := "Unknown (undefined)";
                             packetSize := 14 |} ];
                      res_threats := [];
                      timestamp := now |}].
Proof.
  exists bare_ipv4_frame. split_and!; [done..| |].
  - intros st. split_and!; try reflexivity.
    change (connectionCounts (on_packet st bare_ipv4_frame))
      with (Js.set
              "undefined.undefined.undefined.undefined->undefined.undefined.undefined.undefined"
              (Js.or_zero
                 (Js.get
                    "undefined.undefined.undefined.undefined->undefined.undefined.undefined.undefined"
                    (connectionCounts st)) + 1)
              (connectionCounts st)).
    by rewrite get_set_eq.
  - intros now. reflexivity.
Qed.

(** ** Protocol names *)

Lemma index_bounded buf i n : Buffer.index buf i = Some n → (n < 256)%N.
Proof.
  unfold Buffer.index. destruct (buf !! i) as [b|]; [|done].
  intros [= <-]. pose proof (Byte.to_N_bounded b). lia.
Qed.

(** The protocol name of the GRE frame is not the one the specification's
    wording gives for protocol number 47. *)
Lemma protocol_name_has_a_blank :
  Buffer.index (data gre_frame) 23 = Some 47%N
  ∧ protocol <$> decoded gre_frame = ["Unknown (47)"]
  ∧ spec_protocol_name 47 = "Unknown(47)"
  ∧ ¬ Forall (λ d, protocol d = spec_protocol_name 47) (decoded gre_frame).
Proof.
  split_and!; [done..|].
  intros Hall. by apply Forall_cons in Hall as [? _].
Qed.

(** C4, amended.  The protocol name of every recorded packet detail is made
    from the value read at offset 23 of its frame: "TCP" for 6, "UDP" for
    17, "ICMP" for 1, "Unknown (N)" with a blank before the parenthesis for
    any other byte value N, and "Unknown (undefined)" when the frame has no
    byte at that offset.  Hence every protocol in [packetDetails] is one of
    TCP, UDP, ICMP, or "Unknown (undefined)", or "Unknown (N)" for a byte
    value N other than 1, 6 and 17. *)
Theorem protocol_name_of_recorded_packets :
  (∀ p, Forall (λ d, protocol d = protocol_name (Buffer.index (data p) 23))
          (decoded p))
  ∧ (∀ frames,
       Forall (λ d, protocol d ∈ ["TCP"; "UDP"; "ICMP"]
                    ∨ protocol d = "Unknown (undefined)"
                    ∨ ∃ n : N, (n < 256)%N ∧ (n ∉ [1%N; 6%N; 17%N])
                           ∧ protocol d = "Unknown (" +:+ Js.show_N n +:+ ")")
         (packetDetails (after_packets frames))).
Proof.
  assert (∀ p, Forall (λ d, protocol d
                            = protocol_name (Buffer.index (data p) 23))
                 (decoded p)) as Hone.
  { intros p.
    destruct (on_packet_cases initial p)
      as [(_ & -> & _)|[(? & _ & _ & -> & _)|(_ & d & -> & _ & _ & Hd & _)]];
      [apply Forall_nil_2..|by apply Forall_singleton]. }
  split; [done|]. intros frames. unfold after_packets.
  rewrite foldl_on_packet_packetDetails. simpl.
  apply Forall_bind, Forall_forall. intros p _.
  eapply Forall_impl; [apply Hone|]. intros d ->. simpl.
  destruct (Buffer.index (data p) 23) as [n|] eqn:Hn; [|by right; left].
  apply index_bounded in Hn.
  rewrite <- protoName_protocol_name.
  repeat case_decide; try (left; set_solver).
  right; right. exists n. split_and!; [done| |done].
  set_solver.
Qed.

(** ** Requests do not share state *)

Lemma analyze_events now c : analyze now c = foldl deliver initial (events now c).
Proof.
  unfold events. rewrite foldl_deliver_after_packets. simpl.
  unfold deliver. rewrite thrown_after_packets. unfold analyze.
  by destruct (closing c).
Qed.

(** *** What a listener does depends on the variables of its call *)

Lemma thrown_deliver st e : thrown (deliver st e) = [] → thrown st = [].
Proof.
  unfold deliver. destruct (thrown st) eqn:Hst; [done|].
  by rewrite Hst.
Qed.

Lemma deliver_exited st e : thrown st ≠ [] → deliver st e = st.
Proof. unfold deliver. by destruct (thrown st). Qed.

Lemma deliver_vars st st' e :
  vars st = vars st' → thrown st = thrown st' →
  vars (deliver st e) = vars (deliver st' e)
  ∧ thrown (deliver st e) = thrown (deliver st' e).
Proof.
  destruct st as [n ds ts cc out sent exc], st' as [n' ds' ts' cc' out' sent' exc'].
  unfold vars. simpl. intros [= -> -> -> -> ->] ->.
  unfold deliver. simpl. destruct exc'; [|done].
  destruct e as [p|now|]; simpl.
  - unfold on_packet, packet_try. simpl.
    destruct (Buffer.readUInt16BE (data p) 12) as [err|e]; [done|].
    by case_decide.
  - unfold on_end, send. simpl. by destruct sent'.
  - unfold on_error, send. simpl. by destruct sent'.
Qed.

(** *** The heap *)

Lemma lookup_store a sc st p :
  a ∉ refs sc → heap (store sc st p) !! a = heap p !! a.
Proof.
  unfold refs. rewrite !not_elem_of_cons. intros (? & ? & ? & ? & ? & _).
  unfold store. simpl. by rewrite !lookup_insert_ne by done.
Qed.

Lemma load_store sc st p : NoDup (refs sc) → load sc (store sc st p) = st.
Proof.
  unfold refs. rewrite !NoDup_cons, !not_elem_of_cons.
  intros ((? & ? & ? & ? & _) & (? & ? & ? & _) & (? & ? & _) & (? & _) & _).
  destruct st. unfold load, store. simpl.
  rewrite lookup_insert_eq.
  rewrite (lookup_insert_ne _ (connectionCounts_at sc) (threats_at sc)) by done.
  rewrite lookup_insert_eq.
  rewrite (lookup_insert_ne _ (connectionCounts_at sc) (packetDetails_at sc)),
    (lookup_insert_ne _ (threats_at sc) (packetDetails_at sc)) by done.
  rewrite lookup_insert_eq.
  rewrite (lookup_insert_ne _ (connectionCounts_at sc) (totalPackets_at sc)),
    (lookup_insert_ne _ (threats_at sc) (totalPackets_at sc)),
    (lookup_insert_ne _ (packetDetails_at sc) (totalPackets_at sc)) by done.
  rewrite lookup_insert_eq.
  rewrite (lookup_insert_ne _ (connectionCounts_at sc) (res_at sc)),
    (lookup_insert_ne _ (threats_at sc) (res_at sc)),
    (lookup_insert_ne _ (packetDetails_at sc) (res_at sc)),
    (lookup_insert_ne _ (totalPackets_at sc) (res_at sc)) by done.
  by rewrite lookup_insert_eq.
Qed.

Lemma vars_load_heap sc p p' :
  (∀ a, a ∈ refs sc → heap p' !! a = heap p !! a) →
  vars (load sc p') = vars (load sc p).
Proof.
  intros Hsame. unfold vars, load, refs in *. simpl.
  by rewrite !Hsame by set_solver.
Qed.

Lemma vars_load_store_other sc sc' st p :
  (∀ a, a ∈ refs sc' → a ∉ refs sc) →
  vars (load sc' (store sc st p)) = vars (load sc' p).
Proof.
  intros Hdisj. apply vars_load_heap. intros a Ha.
  by apply lookup_store, Hdisj.
Qed.

Lemma call_upload_unfold p :
  call_upload p
  = {| heap :=
         <[next p + 4 := CountsCell []]>
           (<[next p + 3 := ThreatsCell []]>
              (<[next p + 2 := DetailsCell []]>
                 (<[next p + 1 := NumberCell 0]>
                    (<[next p := ResCell []]> (heap p)))));
       next := next p + 5;
       stderr := stderr p;
       uncaught := uncaught p;
       calls := calls p ++ [ {| res_at := next p;
                                totalPackets_at := next p + 1;
                                packetDetails_at := next p + 2;
                                threats_at := next p + 3;
                                connectionCounts_at := next p + 4 |} ] |}.
Proof.
  unfold call_upload, alloc. simpl.
  replace (S (next p)) with (next p + 1) by lia.
  replace (S (next p + 1)) with (next p + 2) by lia.
  replace (S (next p + 2)) with (next p + 3) by lia.
  replace (S (next p + 3)) with (next p + 4) by lia.
  by replace (S (next p + 4)) with (next p + 5) by lia.
Qed.

Lemma lookup_call_upload a p :
  a < next p → heap (call_upload p) !! a = heap p !! a.
Proof.
  intros Hlt. rewrite call_upload_unfold. simpl.
  by rewrite !lookup_insert_ne by lia.
Qed.

(** The variables of a new call are as lines 143-146 make them. *)
Lemma vars_load_new p :
  vars (load {| res_at := next p;
                totalPackets_at := next p + 1;
                packetDetails_at := next p + 2;
                threats_at := next p + 3;
                connectionCounts_at := next p + 4 |} (call_upload p))
  = vars initial.
Proof.
  rewrite call_upload_unfold. unfold vars, load. simpl.
  rewrite lookup_insert_eq.
  rewrite (lookup_insert_ne _ (next p + 4) (next p + 3)) by lia.
  rewrite lookup_insert_eq.
  rewrite !(lookup_insert_ne _ _ (next p + 2)) by lia.
  rewrite lookup_insert_eq.
  rewrite !(lookup_insert_ne _ _ (next p + 1)) by lia.
  rewrite lookup_insert_eq.
  rewrite !(lookup_insert_ne _ _ (next p)) by lia.
  by rewrite lookup_insert_eq.
Qed.

(** *** Every call has cells of its own *)

Lemma well_formed_boot : well_formed boot.
Proof. split; [apply NoDup_nil_2|apply Forall_nil_2]. Qed.

Lemma well_formed_store sc st p : well_formed p → well_formed (store sc st p).
Proof. done. Qed.

Lemma well_formed_call_upload p : well_formed p → well_formed (call_upload p).
Proof.
  intros [Hnd Hlt]. rewrite call_upload_unfold. unfold well_formed. simpl.
  rewrite !bind_app. csimpl.
  split.
  - apply NoDup_app. split_and!; [done| |].
    + intros a Ha. eapply Forall_forall in Hlt; [|done].
      rewrite !not_elem_of_cons. split_and!; try lia. apply not_elem_of_nil.
    + rewrite !NoDup_cons, !not_elem_of_cons.
      split_and!; try lia; try apply not_elem_of_nil. apply NoDup_nil_2.
  - apply Forall_app. split.
    + eapply Forall_impl; [done|]. simpl. lia.
    + repeat (apply Forall_cons; split; [lia|]). apply Forall_nil_2.
Qed.

Lemma well_formed_step p s : well_formed p → well_formed (step p s).
Proof.
  intros Hwf. destruct s as [|j e]; simpl.
  - destruct (uncaught p); [by apply well_formed_call_upload|done].
  - destruct (calls p !! j); [by apply well_formed_store|done].
Qed.

Lemma well_formed_run steps : well_formed (run steps).
Proof.
  unfold run. induction steps as [|s steps IH] using rev_ind.
  - apply well_formed_boot.
  - rewrite foldl_snoc. by apply well_formed_step.
Qed.

Lemma NoDup_bind_lookup {A B} (f : A → list B) (l : list A) i x :
  NoDup (l ≫= f) → l !! i = Some x → NoDup (f x).
Proof.
  revert i. induction l as [|z l IH]; intros i; [done|]. csimpl.
  intros (Hz & _ & Hl)%NoDup_app. destruct i as [|i]; simpl.
  - by intros [= <-].
  - by apply IH.
Qed.

Lemma NoDup_bind_disjoint {A B} (f : A → list B) (l : list A) i j x y a :
  NoDup (l ≫= f) → l !! i = Some x → l !! j = Some y → i ≠ j →
  a ∈ f y → a ∉ f x.
Proof.
  revert i j. induction l as [|z l IH]; intros i j; [done|]. csimpl.
  intros (Hz & Hdisj & Hl)%NoDup_app Hi Hj Hne Hy Hx.
  destruct i as [|i], j as [|j]; simpl in *; [done| | |].
  - assert (x = z) as -> by congruence.
    apply (Hdisj a Hx). apply list_elem_of_bind. exists y.
    split; [done|]. by eapply list_elem_of_lookup_2.
  - assert (y = z) as -> by congruence.
    apply (Hdisj a Hy). apply list_elem_of_bind. exists x.
    split; [done|]. by eapply list_elem_of_lookup_2.
  - eapply (IH i j); eauto.
Qed.

Lemma well_formed_own p i sc :
  well_formed p → calls p !! i = Some sc → NoDup (refs sc).
Proof. intros [Hnd _]. by apply NoDup_bind_lookup. Qed.

Lemma well_formed_apart p i j sc sc' a :
  well_formed p → calls p !! i = Some sc → calls p !! j = Some sc' → i ≠ j →
  a ∈ refs sc' → a ∉ refs sc.
Proof. intros [Hnd _]. by apply NoDup_bind_disjoint. Qed.

Lemma well_formed_allocated p i sc a :
  well_formed p → calls p !! i = Some sc → a ∈ refs sc → a < next p.
Proof.
  intros [_ Hlt] Hi Ha. eapply Forall_forall in Hlt; [done|].
  apply list_elem_of_bind. exists sc. split; [done|].
  by eapply list_elem_of_lookup_2.
Qed.

(** *** The events of a call *)

Lemma events_from_snoc n i steps s :
  events_from n i (steps ++ [s])
  = events_from n i steps
    ++ match s with
       | Call => []
       | Emit call e =>
           if decide (call = i ∧ i < n + arrivals steps) then [e] else []
       end.
Proof.
  revert n. induction steps as [|s' steps IH]; intros n; simpl.
  - destruct s as [|j e]; [done|]. rewrite Nat.add_0_r.
    by destruct (decide (j = i ∧ i < n)).
  - destruct s' as [|j' e'].
    + rewrite IH. by replace (S n + arrivals steps) with (n + S (arrivals steps))
        by lia.
    + rewrite IH. by destruct (decide (j' = i ∧ i < n)).
Qed.

Lemma events_from_nil n i steps :
  n + arrivals steps ≤ i → events_from n i steps = [].
Proof.
  revert n. induction steps as [|s steps IH]; intros n Hle; simpl; [done|].
  destruct s as [|j e]; simpl in Hle.
  - apply IH. lia.
  - rewrite decide_False by lia. apply IH. lia.
Qed.

Lemma arrivals_snoc steps s :
  arrivals (steps ++ [s])
  = arrivals steps + match s with Call => 1 | Emit _ _ => 0 end.
Proof.
  induction steps as [|s' steps IH]; simpl.
  - by destruct s.
  - destruct s'; rewrite IH; lia.
Qed.

(** *** A call sees its own events only *)

(** After any steps, the variables of each call and its response are what
    the events of that call leave from the initial state: all of them while
    the process runs, those delivered before it exited otherwise. *)
Lemma run_own_events steps :
  length (calls (run steps)) ≤ arrivals steps
  ∧ (uncaught (run steps) = [] → length (calls (run steps)) = arrivals steps)
  ∧ ∀ i sc,
      calls (run steps) !! i = Some sc →
      ∃ evs rest,
        events_of i steps = evs ++ rest
        ∧ vars (load sc (run steps)) = vars (foldl deliver initial evs)
        ∧ (uncaught (run steps) = [] →
           rest = [] ∧ thrown (foldl deliver initial evs) = []).
Proof.
  induction steps as [|s steps (Hle & Hlen & IH)] using rev_ind.
  { split_and!; [done..|]. intros i sc Hsc. done. }
  pose proof (well_formed_run steps) as Hwf.
  unfold run in *. rewrite foldl_snoc, arrivals_snoc.
  set (p := foldl step boot steps) in *.
  unfold events_of in *. setoid_rewrite events_from_snoc. simpl.
  destruct s as [|j e]; simpl.
  - (* a call of the route handler *)
    destruct (uncaught p) eqn:Hexc.
    + rewrite call_upload_unfold. simpl. rewrite length_app. simpl.
      specialize (Hlen eq_refl).
      split_and!; [lia..|]. intros i sc Hsc.
      apply lookup_app_Some in Hsc as [Hsc|[Hge Hsc]].
      * destruct (IH i sc Hsc) as (evs & rest & Hev & Hvars & Hrest).
        exists evs, rest. rewrite app_nil_r.
        split_and!; [done| |intros _; by apply Hrest].
        rewrite <- Hvars, <- call_upload_unfold. apply vars_load_heap.
        intros a Ha. apply lookup_call_upload.
        by eapply well_formed_allocated.
      * apply list_lookup_singleton_Some in Hsc as [Hi <-].
        exists [], []. rewrite app_nil_r. split_and!; [|by rewrite <- call_upload_unfold, vars_load_new|done].
        apply events_from_nil. lia.
    + split_and!; [lia|by rewrite Hexc|]. intros i sc Hsc.
      destruct (IH i sc Hsc) as (evs & rest & Hev & Hvars & _).
      exists evs, rest. rewrite app_nil_r. by rewrite Hexc.
  - (* an event of call [j] *)
    rewrite Nat.add_0_r.
    destruct (calls p !! j) as [scj|] eqn:Hj; simpl.
    + assert (uncaught p = thrown (load scj p)) as Hexc by done.
      split_and!; [done| |].
      { intros Hnil%thrown_deliver. by apply Hlen. }
      intros i sc Hsc.
      destruct (IH i sc Hsc) as (evs & rest & Hev & Hvars & Hrest).
      destruct (decide (j = i)) as [->|Hne].
      * assert (scj = sc) as -> by congruence.
        rewrite decide_True by (split; [done|]; apply lookup_lt_Some in Hsc; lia).
        rewrite load_store by by eapply well_formed_own.
        destruct (uncaught p) eqn:Hp.
        -- destruct (Hrest eq_refl) as [-> Hevs]. rewrite app_nil_r in Hev.
           exists (evs ++ [e]), []. rewrite app_nil_r, Hev, foldl_snoc.
           destruct (deliver_vars (load sc p) (foldl deliver initial evs) e)
             as [Hv Ht]; [done|by rewrite Hevs, <- Hexc|].
           split_and!; [done..|]. intros Hnil. by rewrite <- Ht.
        -- exists evs, (rest ++ [e]).
           rewrite deliver_exited by (by rewrite <- Hexc).
           rewrite Hev, app_assoc. split_and!; [done..|].
           by rewrite <- Hexc.
      * rewrite decide_False by tauto. rewrite app_nil_r.
        exists evs, rest. split_and!; [done| |].
        -- rewrite <- Hvars. apply vars_load_store_other.
           intros a. by eapply (well_formed_apart p j i).
        -- intros Hnil%thrown_deliver. apply Hrest. by rewrite Hexc.
    + split_and!; [done..|]. intros i sc Hsc.
      destruct (IH i sc Hsc) as (evs & rest & Hev & Hvars & Hrest).
      exists evs, rest. rewrite decide_False by (intros [-> _]; congruence).
      by rewrite app_nil_r.
Qed.

(** *** The response of one call *)

Lemma events_split (es : list Event) :
  ∃ frames tail,
    es = (OnPacket <$> frames) ++ tail
    ∧ match tail with OnPacket _ :: _ => False | _ => True end.
Proof.
  induction es as [|e es (frames & tail & -> & Htail)].
  - by exists [], [].
  - destruct e as [p|now|].
    + by exists (p :: frames), tail.
    + by exists [], (OnEnd now :: (OnPacket <$> frames) ++ tail).
    + by exists [], (OnError :: (OnPacket <$> frames) ++ tail).
Qed.

(** An analysis result in the response of a run of events was written by
    the first "end" event, which only "packet" events precede. *)
Lemma res_foldl_deliver_Json es a :
  Json a ∈ res (foldl deliver initial es) →
  ∃ frames now rest,
    es = (OnPacket <$> frames) ++ OnEnd now :: rest
    ∧ res (foldl deliver initial es) = [Json a]
    ∧ res (analyze now {| frames := frames; closing := End |}) = [Json a].
Proof.
  destruct (events_split es) as (frames & tail & -> & Htail).
  rewrite foldl_deliver_after_packets.
  destruct tail as [|[p|now|] rest]; simpl; [| done | |].
  - rewrite res_after_packets. by intros ?%elem_of_nil.
  - assert (deliver (after_packets frames) (OnEnd now)
            = analyze now {| frames := frames; closing := End |}) as ->
      by (unfold deliver; by rewrite thrown_after_packets).
    rewrite res_foldl_deliver_sent by by rewrite res_analyze_End.
    intros Hin. exists frames, now, rest.
    split; [done|]. rewrite res_analyze_End in *.
    by apply list_elem_of_singleton in Hin as ->.
  - assert (deliver (after_packets frames) OnError
            = analyze "" {| frames := frames; closing := Error |}) as ->
      by (unfold deliver; by rewrite thrown_after_packets).
    rewrite res_foldl_deliver_sent by by rewrite res_analyze_Error.
    rewrite res_analyze_Error. by intros ?%list_elem_of_singleton.
Qed.

(** C10.  Each call of the route handler has variables and a response of its
    own, in cells no other call refers to, and they hold what the events of
    that call alone leave from the initial, empty state: all of its events
    while the process runs, those delivered before the process exited
    otherwise.  So an analysis result in the response of a call was written
    by the "end" event of that call after "packet" events only, and it is
    the result of analysing the frames of these events alone, whatever the
    other calls did before, between or after them: its [totalPackets] is
    their number, its [packetDetails] what they decode to, and the clock
    changes the timestamp at most. *)
Theorem analysis_depends_on_capture_only
    (steps : list Step) (i : nat) (sc : Scope) :
  calls (run steps) !! i = Some sc →
  (∀ j sc' a, calls (run steps) !! j = Some sc' → j ≠ i →
              a ∈ refs sc → a ∉ refs sc')
  ∧ (∃ evs rest,
       events_of i steps = evs ++ rest
       ∧ vars (load sc (run steps)) = vars (foldl deliver initial evs)
       ∧ (uncaught (run steps) = [] → rest = []))
  ∧ (∀ a, Json a ∈ res (load sc (run steps)) →
          ∃ frames now rest,
            events_of i steps = (OnPacket <$> frames) ++ OnEnd now :: rest
            ∧ res (load sc (run steps)) = [Json a]
            ∧ res (analyze now {| frames := frames; closing := End |})
              = [Json a]
            ∧ res_totalPackets a = length frames
            ∧ res_packetDetails a = frames ≫= decoded
            ∧ ∀ now',
                strip_timestamp
                  <$> res (analyze now' {| frames := frames; closing := End |})
                = [strip_timestamp (Json a)]).
Proof.
  intros Hsc. pose proof (well_formed_run steps) as Hwf.
  destruct (run_own_events steps) as (_ & _ & Hown).
  destruct (Hown i sc Hsc) as (evs & rest & Hev & Hvars & Hrest).
  split_and!.
  - intros j sc' a Hsc' Hne. by eapply (well_formed_apart (run steps) j i).
  - exists evs, rest. split_and!; [done..|]. intros Hnil. by apply Hrest.
  - intros a Hin.
    assert (res (load sc (run steps)) = res (foldl deliver initial evs))
      as Hres by (unfold vars in Hvars; congruence).
    rewrite Hres in *.
    apply res_foldl_deliver_Json in Hin
      as (frames & now & rest' & -> & Hone & Hresult).
    exists frames, now, (rest' ++ rest).
    split_and!; [by rewrite Hev, <- app_assoc|done..| | |].
    + rewrite res_analyze_End in Hresult. by injection Hresult as <-.
    + rewrite res_analyze_End in Hresult. by injection Hresult as <-.
    + intros now'. rewrite res_analyze_End in *. by injection Hresult as <-.
Qed.

Lemma analysis_depends_on_capture_only_witness :
  calls (run sample_steps) !! 0 = Some sample_scope
  ∧ Json sample_result ∈ res (load sample_scope (run sample_steps))
  ∧ ∃ frames now rest,
      events_of 0 sample_steps = (OnPacket <$> frames) ++ OnEnd now :: rest
      ∧ res (load sample_scope (run sample_steps)) = [Json sample_result]
      ∧ res (analyze now {| frames := frames; closing := End |})
        = [Json sample_result]
      ∧ res_totalPackets sample_result = length frames
      ∧ res_packetDetails sample_result = frames ≫= decoded
      ∧ ∀ now',
          strip_timestamp
            <$> res (analyze now' {| frames := frames; closing := End |})
          = [strip_timestamp (Json sample_result)].
Proof.
  assert (calls (run sample_steps) !! 0 = Some sample_scope) as Hsc
    by reflexivity.
  assert (Json sample_result ∈ res (load sample_scope (run sample_steps)))
    as Hin by (vm_compute; apply list_elem_of_here).
  split; [exact Hsc|]. split; [exact Hin|].
  destruct (analysis_depends_on_capture_only sample_steps 0 sample_scope Hsc)
    as (_ & _ & Hresult).
  exact (Hresult sample_result Hin).
Defined.

(** Two uploads whose events are interleaved: the first is answered as its
    two frames analysed alone, the second with the error of its own
    parser. *)
Example two_uploads_interleaved :
  calls (run [Call; Call; Emit 0 (OnPacket gre_frame);
              Emit 1 (OnPacket arp_frame); Emit 0 (OnPacket short_frame);
              Emit 1 OnError; Emit 0 (OnEnd "T")])
  = [ {| res_at := 0; totalPackets_at := 1; packetDetails_at := 2;
         threats_at := 3; connectionCounts_at := 4 |};
      {| res_at := 5; totalPackets_at := 6; packetDetails_at := 7;
         threats_at := 8; connectionCounts_at := 9 |} ]
  ∧ (λ sc, res (load sc
                  (run [Call; Call; Emit 0 (OnPacket gre_frame);
                        Emit 1 (OnPacket arp_frame);
                        Emit 0 (OnPacket short_frame);
                        Emit 1 OnError; Emit 0 (OnEnd "T")])))
      <$> calls (run [Call; Call; Emit 0 (OnPacket gre_frame);
                      Emit 1 (OnPacket arp_frame);
                      Emit 0 (OnPacket short_frame);
                      Emit 1 OnError; Emit 0 (OnEnd "T")])
    = [ res (analyze "T" {| frames := [gre_frame; short_frame];
                            closing := End |});
        [JsonError 500 "Failed to parse PCAP file."] ].
Proof. split; vm_compute; reflexivity. Qed.

(** An upload whose parser emits "end" after "error" makes the process exit;
    a call that was not answered by then gets no response. *)
Example exit_leaves_no_response :
  uncaught (run [Call; Call; Emit 0 OnError; Emit 0 (OnEnd "T");
                 Emit 1 (OnPacket gre_frame); Emit 1 (OnEnd "T")])
  = [Js.ERR_HTTP_HEADERS_SENT]
  ∧ (λ sc, res (load sc
                  (run [Call; Call; Emit 0 OnError; Emit 0 (OnEnd "T");
                        Emit 1 (OnPacket gre_frame); Emit 1 (OnEnd "T")])))
      <$> calls (run [Call; Call; Emit 0 OnError; Emit 0 (OnEnd "T");
                      Emit 1 (OnPacket gre_frame); Emit 1 (OnEnd "T")])
    = [ [JsonError 500 "Failed to parse PCAP file."]; [] ].
Proof. split; vm_compute; reflexivity. Qed.

(** * Further properties of the upload route *)

(** ** The size of a recorded packet *)

Lemma readUInt16BE_length buf off n :
  Buffer.readUInt16BE buf off = inr n → off + 2 ≤ length buf.
Proof.
  unfold Buffer.readUInt16BE, Buffer.index.
  destruct (buf !! off) as [first|]; [|by case_decide].
  destruct (buf !! S off) as [last|] eqn:Hlast; [|by case_decide].
  intros _. apply lookup_lt_Some in Hlast. lia.
Qed.

(** The size recorded for a packet is the length of its frame, at least
    the 14 bytes the ethertype read needs: the fallbacks to
    [packet.header.orig_len] and to 0 at line 169 are never taken for a
    recorded packet. *)
Theorem recorded_size_is_frame_length (p : Packet) :
  Forall (λ d, packetSize d = N.of_nat (length (data p))
               ∧ 14 ≤ length (data p))
    (decoded p).
Proof.
  destruct (on_packet_cases initial p)
    as [(_ & -> & _)|[(? & _ & _ & -> & _)
                     |(Hread & d & -> & _ & _ & _ & Hsize & _)]];
    [apply Forall_nil_2..|].
  apply Forall_singleton. apply readUInt16BE_length in Hread.
  split; [|lia]. rewrite Hsize. unfold packetLength.
  destruct (N.of_nat (length (data p))) eqn:Hlen; [lia|done].
Qed.

(** ** Connection keys *)

Lemma lacks_app c a b : lacks c (a +:+ b) = lacks c a && lacks c b.
Proof.
  induction a as [|c' a IH]; simpl; [done|].
  by destruct (decide (c' = c)).
Qed.

Lemma delimits c a a' r r' :
  lacks c a → lacks c a' →
  a +:+ String c r = a' +:+ String c r' → a = a' ∧ r = r'.
Proof.
  revert a'. induction a as [|c1 a IH]; intros [|c2 a']; simpl.
  - by intros _ _ [= ->].
  - intros _ Ha' [= <- _]. by rewrite decide_True in Ha'.
  - intros Ha _ [= -> _]. by rewrite decide_True in Ha.
  - intros Ha Ha' [= -> Heq].
    destruct (decide (c2 = c)); [done|].
    destruct (IH a') as [-> ->]; done.
Qed.

Lemma lacks_uint c u :
  c ≠ "0"%char → c ≠ "1"%char → c ≠ "2"%char → c ≠ "3"%char → c ≠ "4"%char →
  c ≠ "5"%char → c ≠ "6"%char → c ≠ "7"%char → c ≠ "8"%char → c ≠ "9"%char →
  lacks c (NilEmpty.string_of_uint u) = true.
Proof.
  intros. induction u; simpl; [done|by rewrite decide_False by done..].
Qed.

Lemma lacks_tpl_dot v : lacks "." (Js.tpl v) = true.
Proof. destruct v; [by apply lacks_uint | done]. Qed.

Lemma lacks_tpl_dash v : lacks "-" (Js.tpl v) = true.
Proof. destruct v; [by apply lacks_uint | done]. Qed.

Lemma lacks_address_dash a b c d : lacks "-" (address a b c d) = true.
Proof. unfold address. by rewrite !lacks_app, !lacks_tpl_dash. Qed.

Lemma show_N_inj n m : Js.show_N n = Js.show_N m → n = m.
Proof.
  unfold Js.show_N. intros Heq. apply DecimalN.Unsigned.to_uint_inj.
  assert (Some (N.to_uint n) = Some (N.to_uint m)) as [= ?]; [|done].
  by rewrite <- !NilEmpty.usu, Heq.
Qed.

Lemma tpl_inj v w : Js.tpl v = Js.tpl w → v = w.
Proof.
  destruct v as [n|], w as [m|]; simpl; [| | |done].
  - by intros ->%show_N_inj.
  - intros Heq. pose proof (NilEmpty.usu (N.to_uint n)) as Hn.
    unfold Js.show_N in Heq. by rewrite Heq in Hn.
  - intros Heq. pose proof (NilEmpty.usu (N.to_uint m)) as Hm.
    unfold Js.show_N in Heq. by rewrite <- Heq in Hm.
Qed.

Lemma address_inj a b c d a' b' c' d' :
  address a b c d = address a' b' c' d' →
  a = a' ∧ b = b' ∧ c = c' ∧ d = d'.
Proof.
  unfold address. intros Heq.
  apply delimits in Heq as [Ha Heq]; [|by rewrite lacks_tpl_dot..].
  apply delimits in Heq as [Hb Heq]; [|by rewrite lacks_tpl_dot..].
  apply delimits in Heq as [Hc Hd]; [|by rewrite lacks_tpl_dot..].
  by apply tpl_inj in Ha as ->, Hb as ->, Hc as ->, Hd as ->.
Qed.

(** Two connection keys made at line 179 are the same string only when
    made from the same eight buffer reads, in the same order: distinct
    source and destination pairs never share a counter, and swapping the
    source and the destination of a connection gives another key unless
    they are the same address. *)
Theorem connection_key_determines_addresses
    (a b c d e f g h a' b' c' d' e' f' g' h' : option N) :
  address a b c d +:+ "->" +:+ address e f g h
  = address a' b' c' d' +:+ "->" +:+ address e' f' g' h' →
  (a, b, c, d) = (a', b', c', d') ∧ (e, f, g, h) = (e', f', g', h').
Proof.
  intros Heq.
  change (address a b c d +:+ String "-" (">" +:+ address e f g h)
          = address a' b' c' d' +:+ String "-" (">" +:+ address e' f' g' h'))
    in Heq.
  apply delimits in Heq as [Hsrc [= Hdst]];
    [|by rewrite lacks_address_dash..].
  apply address_inj in Hsrc as (-> & -> & -> & ->).
  by apply address_inj in Hdst as (-> & -> & -> & ->).
Qed.

Lemma connection_key_determines_addresses_witness :
  address (Some 10%N) (Some 0%N) (Some 0%N) (Some 1%N)
    +:+ "->" +:+ address (Some 10%N) (Some 0%N) (Some 0%N) (Some 2%N)
  = address (Some 10%N) (Some 0%N) (Some 0%N) (Some 1%N)
      +:+ "->" +:+ address (Some 10%N) (Some 0%N) (Some 0%N) (Some 2%N)
  ∧ (Some 10%N, Some 0%N, Some 0%N, Some 1%N)
    = (Some 10%N, Some 0%N, Some 0%N, Some 1%N)
  ∧ (Some 10%N, Some 0%N, Some 0%N, Some 2%N)
    = (Some 10%N, Some 0%N, Some 0%N, Some 2%N).
Proof.
  split; [reflexivity|].
  apply (connection_key_determines_addresses
           (Some 10%N) (Some 0%N) (Some 0%N) (Some 1%N)
           (Some 10%N) (Some 0%N) (Some 0%N) (Some 2%N)
           (Some 10%N) (Some 0%N) (Some 0%N) (Some 1%N)
           (Some 10%N) (Some 0%N) (Some 0%N) (Some 2%N)).
  reflexivity.
Defined.

(** ** The findings are made from the recorded packet details *)

Lemma foldl_on_packet_connectionCounts st frames :
  connectionCounts (foldl on_packet st frames)
  = foldl count_packet (connectionCounts st) (frames ≫= decoded).
Proof.
  revert st. induction frames as [|p frames IH]; intros st; csimpl; [done|].
  by rewrite IH, on_packet_connectionCounts, foldl_app.
Qed.

Lemma connectionCounts_after_packets frames :
  connectionCounts (after_packets frames)
  = foldl count_packet [] (frames ≫= decoded).
Proof. apply foldl_on_packet_connectionCounts. Qed.

Lemma res_analyze_End_threats_of now frames :
  res (analyze now {| frames := frames; closing := End |}) =
    [Json {| res_totalPackets := length frames;
             res_packetDetails := frames ≫= decoded;
             res_threats := threats_of (frames ≫= decoded);
             timestamp := now |}].
Proof.
  rewrite res_analyze_End, connectionCounts_after_packets. done.
Qed.

Lemma NoDup_keys_foldl_count_packet cc ds :
  NoDup (Js.keys cc) → NoDup (Js.keys (foldl count_packet cc ds)).
Proof.
  revert cc. induction ds as [|d ds IH]; intros cc Hnd; simpl; [done|].
  by apply IH, NoDup_keys_set.
Qed.

Lemma get_foldl_count_packet key ds :
  Js.get key (foldl count_packet [] ds) = counted key ds.
Proof.
  revert key. induction ds as [|d ds IH] using rev_ind; intros key; [done|].
  rewrite foldl_snoc. unfold count_packet at 1.
  rewrite (IH (conn_key d)), or_zero_counted. unfold counted at 1.
  rewrite packets_on_snoc.
  destruct (decide (conn_key d = key)) as [<-|Hne].
  - rewrite get_set_eq. by rewrite Nat.add_1_r.
  - rewrite get_set_ne, IH, Nat.add_0_r by done. done.
Qed.

Lemma filter_recognised_bind frames :
  filter recognised frames ≫= decoded = frames ≫= decoded.
Proof.
  induction frames as [|p frames IH]; [done|].
  rewrite filter_cons. destruct (decide (recognised p)) as [Hp|Hp]; csimpl.
  - by rewrite IH.
  - apply dec_stable in Hp. by rewrite Hp, IH.
Qed.

(** Frames that are not taken for IPv4 only count in [totalPackets]: the
    response to a capture has the [packetDetails] and the [threats] of the
    capture with those frames left out. *)
Theorem unrecognised_frames_change_totalPackets_only
    (frames : list Packet) (now : string) :
  ∃ r r',
    res (analyze now {| frames := frames; closing := End |}) = [Json r]
    ∧ res (analyze now {| frames := filter recognised frames;
                          closing := End |}) = [Json r']
    ∧ res_packetDetails r = res_packetDetails r'
    ∧ res_threats r = res_threats r'
    ∧ res_totalPackets r' ≤ res_totalPackets r.
Proof.
  do 2 eexists. split_and!; [apply res_analyze_End_threats_of..| | | ]; simpl.
  - by rewrite filter_recognised_bind.
  - by rewrite filter_recognised_bind.
  - apply length_filter.
Qed.

(** ** Small captures give no finding *)

Lemma packets_on_le key ds : packets_on key ds ≤ length ds.
Proof. apply length_filter. Qed.

Lemma length_remove_dups_le (l : list string) : length (remove_dups l) ≤ length l.
Proof.
  induction l as [|x l IH]; simpl; [done|].
  case_decide; simpl; lia.
Qed.

Lemma distinct_destinations_le src ds : distinct_destinations src ds ≤ length ds.
Proof.
  unfold distinct_destinations, destinations_of.
  etrans; [apply length_remove_dups_le|].
  rewrite length_fmap. apply length_filter.
Qed.

Lemma elem_of_ddos_findings t ds :
  t ∈ findings ddos_threat (λ c, 100 < c) (foldl count_packet [] ds) ↔
  ∃ k, 100 < packets_on k ds ∧ t = ddos_threat k (packets_on k ds).
Proof.
  rewrite elem_of_findings. split.
  - intros (k & c & Hin & Hc & ->).
    apply elem_of_get in Hin;
      [|by apply NoDup_keys_foldl_count_packet, NoDup_nil_2].
    rewrite get_foldl_count_packet in Hin.
    apply counted_Some in Hin as [-> _]. by exists k.
  - intros (k & Hk & ->). exists k, (packets_on k ds). split_and!; [|done..].
    apply get_Some_elem_of. rewrite get_foldl_count_packet.
    unfold counted. destruct (packets_on k ds); [lia|done].
Qed.

Lemma elem_of_scan_findings t ds :
  t ∈ findings (λ s dsts, scan_threat s (size dsts)) (λ dsts, 20 < size dsts)
        (portScanSources ds) ↔
  ∃ s, 20 < distinct_destinations s ds
       ∧ t = scan_threat s (distinct_destinations s ds).
Proof.
  rewrite elem_of_findings. split.
  - intros (s & dsts & Hin & Hsize & ->).
    apply elem_of_get in Hin;
      [|by apply NoDup_keys_foldl_scan_visit, NoDup_nil_2].
    apply get_portScanSources_size in Hin. rewrite Hin in Hsize |- *.
    by exists s.
  - intros (s & Hs & ->).
    destruct (Js.get s (portScanSources ds)) as [dsts|] eqn:Hget.
    + pose proof (get_portScanSources_size _ _ _ Hget) as Hsize.
      exists s, dsts. rewrite Hsize. split_and!; [|done..].
      by apply get_Some_elem_of.
    + apply get_portScanSources_None in Hget. lia.
Qed.

Lemma elem_of_threats_of t ds :
  t ∈ threats_of ds ↔
  (∃ k, 100 < packets_on k ds ∧ t = ddos_threat k (packets_on k ds))
  ∨ (∃ s, 20 < distinct_destinations s ds
          ∧ t = scan_threat s (distinct_destinations s ds)).
Proof.
  unfold threats_of.
  by rewrite elem_of_app, elem_of_ddos_findings, elem_of_scan_findings.
Qed.

(** A capture with at most 20 frames taken for IPv4 gives no finding at
    all, however many other frames it has. *)
Theorem at_most_20_packets_no_finding (frames : list Packet) (now : string) :
  length (frames ≫= decoded) ≤ 20 →
  ∃ r, res (analyze now {| frames := frames; closing := End |}) = [Json r]
       ∧ res_threats r = [].
Proof.
  intros Hlen. eexists. split; [apply res_analyze_End_threats_of|]. simpl.
  apply elem_of_nil_inv. intros t [(k & Hk & _)|(s & Hs & _)]%elem_of_threats_of.
  - pose proof (packets_on_le k (frames ≫= decoded)). lia.
  - pose proof (distinct_destinations_le s (frames ≫= decoded)). lia.
Qed.

Lemma at_most_20_packets_no_finding_witness :
  length (sweep 20 ≫= decoded) ≤ 20
  ∧ ∃ r, res (analyze "T" {| frames := sweep 20; closing := End |}) = [Json r]
         ∧ res_threats r = [].
Proof.
  assert (length (sweep 20 ≫= decoded) ≤ 20) as Hlen
    by (vm_compute; repeat constructor).
  split; [done|]. by apply (at_most_20_packets_no_finding (sweep 20) "T").
Defined.

(** A capture with at most 100 frames taken for IPv4 gives no
    "Potential DDoS" finding. *)
Theorem at_most_100_packets_no_ddos_finding
    (frames : list Packet) (now : string) :
  length (frames ≫= decoded) ≤ 100 →
  ∃ r, res (analyze now {| frames := frames; closing := End |}) = [Json r]
       ∧ Forall (λ t, type t ≠ "Potential DDoS") (res_threats r).
Proof.
  intros Hlen. eexists. split; [apply res_analyze_End_threats_of|]. simpl.
  apply Forall_forall.
  intros t [(k & Hk & _)|(s & _ & ->)]%elem_of_threats_of; [|done].
  pose proof (packets_on_le k (frames ≫= decoded)). lia.
Qed.

Lemma at_most_100_packets_no_ddos_finding_witness :
  length (sweep 25 ≫= decoded) ≤ 100
  ∧ ∃ r, res (analyze "T" {| frames := sweep 25; closing := End |}) = [Json r]
         ∧ Forall (λ t, type t ≠ "Potential DDoS") (res_threats r).
Proof.
  assert (length (sweep 25 ≫= decoded) ≤ 100) as Hlen
    by (vm_compute; repeat constructor).
  split; [done|]. by apply (at_most_100_packets_no_ddos_finding (sweep 25) "T").
Defined.

(** ** The findings in closed form *)

Lemma first_seen_snoc l x :
  first_seen (l ++ [x])
  = if decide (x ∈ l) then first_seen l else first_seen l ++ [x].
Proof.
  unfold first_seen. rewrite reverse_snoc. simpl.
  destruct (decide_rel elem_of x (reverse l)) as [Hin|Hnin];
    rewrite elem_of_reverse in *.
  - by rewrite decide_True.
  - by rewrite decide_False, reverse_cons.
Qed.

Lemma elem_of_first_seen x l : x ∈ first_seen l ↔ x ∈ l.
Proof.
  unfold first_seen.
  by rewrite elem_of_reverse, elem_of_remove_dups, elem_of_reverse.
Qed.

Lemma keys_foldl_count_packet ds :
  Js.keys (foldl count_packet [] ds) = first_seen (conn_key <$> ds).
Proof.
  induction ds as [|d ds IH] using rev_ind; [done|].
  rewrite foldl_snoc, fmap_snoc, first_seen_snoc. unfold count_packet at 1.
  rewrite keys_set, IH.
  destruct (Js.get (conn_key d) (foldl count_packet [] ds)) eqn:Hget.
  - rewrite decide_True; [done|].
    apply elem_of_first_seen. rewrite <- IH.
    destruct (decide (conn_key d ∈ Js.keys (foldl count_packet [] ds)))
      as [|Hnin]; [done|]. apply get_None in Hnin. congruence.
  - rewrite decide_False; [done|].
    apply get_None in Hget. by rewrite IH, elem_of_first_seen in Hget.
Qed.

Lemma keys_scan_visit o d :
  Js.keys (scan_visit o d)
  = if decide (srcIP d ∈ Js.keys o) then Js.keys o else Js.keys o ++ [srcIP d].
Proof.
  unfold scan_visit. rewrite keys_set, get_set_eq, keys_set.
  destruct (Js.get (srcIP d) o) eqn:Hget.
  - rewrite decide_True; [done|].
    destruct (decide (srcIP d ∈ Js.keys o)) as [|Hnin]; [done|].
    apply get_None in Hnin. congruence.
  - rewrite decide_False; [done|]. by apply get_None.
Qed.

Lemma keys_portScanSources ds :
  Js.keys (portScanSources ds) = first_seen (srcIP <$> ds).
Proof.
  unfold portScanSources.
  induction ds as [|d ds IH] using rev_ind; [done|].
  rewrite foldl_snoc, fmap_snoc, first_seen_snoc, keys_scan_visit, IH.
  pose proof (elem_of_first_seen (srcIP d) (srcIP <$> ds)) as Hiff.
  repeat case_decide; tauto.
Qed.

Lemma entries_from_keys {V} (f : string → V) (es : Js.obj V) :
  (∀ k v, (k, v) ∈ es → v = f k) → es = (λ k, (k, f k)) <$> Js.keys es.
Proof.
  unfold Js.keys. induction es as [|[k v] es IH]; intros Hf; csimpl; [done|].
  rewrite (Hf k v) by (apply elem_of_cons; by left). f_equal.
  apply IH. intros k' v' Hin. apply Hf, elem_of_cons. by right.
Qed.

Lemma findings_from_keys {V} (mk : string → V → Threat) (P : V → Prop)
    `{!∀ v, Decision (P v)} (f : string → V) (ks : list string) :
  findings mk P ((λ k, (k, f k)) <$> ks)
  = (λ k, mk k (f k)) <$> filter (λ k, P (f k)) ks.
Proof.
  unfold findings. induction ks as [|k ks IH]; [done|]. csimpl.
  rewrite !filter_cons. simpl. case_decide; csimpl; by rewrite IH.
Qed.

Lemma ddos_findings_closed_form ds :
  findings ddos_threat (λ c, 100 < c) (foldl count_packet [] ds)
  = (λ k, ddos_threat k (packets_on k ds))
      <$> filter (λ k, 100 < packets_on k ds) (first_seen (conn_key <$> ds)).
Proof.
  rewrite <- keys_foldl_count_packet.
  rewrite (entries_from_keys (λ k, packets_on k ds)
             (foldl count_packet [] ds)) at 1.
  - apply (findings_from_keys ddos_threat (λ c, 100 < c)).
  - intros k v Hin.
    apply elem_of_get in Hin;
      [|by apply NoDup_keys_foldl_count_packet, NoDup_nil_2].
    rewrite get_foldl_count_packet in Hin.
    by apply counted_Some in Hin as [-> _].
Qed.

Lemma scan_findings_closed_form ds :
  findings (λ s dsts, scan_threat s (size dsts)) (λ dsts, 20 < size dsts)
    (portScanSources ds)
  = (λ s, scan_threat s (distinct_destinations s ds))
      <$> filter (λ s, 20 < distinct_destinations s ds)
            (first_seen (srcIP <$> ds)).
Proof.
  rewrite <- keys_portScanSources.
  set (f := λ s, list_to_set (C := gset string)
                   (dstIP <$> filter (λ d, srcIP d = s) ds)).
  assert (∀ s, size (f s) = distinct_destinations s ds) as Hsize
    by (intros s; apply size_list_to_set_remove_dups).
  rewrite (entries_from_keys f (portScanSources ds)) at 1.
  - rewrite (findings_from_keys (λ s dsts, scan_threat s (size dsts))
               (λ dsts, 20 < size dsts)).
    rewrite (list_filter_iff _ (λ s, 20 < distinct_destinations s ds))
      by (intros s; by rewrite Hsize).
    apply list_fmap_ext. intros _ s _. by rewrite Hsize.
  - intros s dsts Hin.
    apply elem_of_get in Hin;
      [|by apply NoDup_keys_foldl_scan_visit, NoDup_nil_2].
    rewrite get_portScanSources in Hin. unfold f.
    destruct (filter (λ d, srcIP d = s) ds); [done|]. congruence.
Qed.

(** The returned [threats], in closed form: first one "Potential DDoS"
    finding for each connection with more than 100 recorded packets, in the
    order in which the connections first occur among the recorded packets,
    each with its number of recorded packets; then one "Potential Port
    Scan" finding for each source with more than 20 distinct recorded
    destinations, in the order in which the sources first occur, each with
    its number of distinct destinations. *)
Theorem threats_in_order_of_first_appearance
    (frames : list Packet) (now : string) :
  ∃ r, res (analyze now {| frames := frames; closing := End |}) = [Json r]
       ∧ res_threats r
         = ((λ k, ddos_threat k (packets_on k (res_packetDetails r)))
              <$> filter (λ k, 100 < packets_on k (res_packetDetails r))
                    (first_seen (conn_key <$> res_packetDetails r)))
           ++ ((λ s, scan_threat s
                       (distinct_destinations s (res_packetDetails r)))
                 <$> filter (λ s, 20 < distinct_destinations s
                                        (res_packetDetails r))
                       (first_seen (srcIP <$> res_packetDetails r))).
Proof.
  eexists. split; [apply res_analyze_End_threats_of|]. simpl.
  unfold threats_of.
  by rewrite ddos_findings_closed_form, scan_findings_closed_form.
Qed.

(** The counters of [connectionCounts] add up to the number of recorded
    packet details, and its keys are the connections of the recorded
    packet details in the order in which they first occur. *)
Theorem connectionCounts_partition_recorded_packets (frames : list Packet) :
  total_count (connectionCounts (after_packets frames))
  = length (packetDetails (after_packets frames))
  ∧ Js.keys (connectionCounts (after_packets frames))
    = first_seen (conn_key <$> packetDetails (after_packets frames)).
Proof.
  rewrite connectionCounts_after_packets. unfold after_packets.
  rewrite foldl_on_packet_packetDetails. simpl. split.
  - by rewrite foldl_count_packet_total.
  - apply keys_foldl_count_packet.
Qed.

(** ** Longer captures and reordered captures *)

Lemma packets_on_app key ds ds' :
  packets_on key (ds ++ ds') = packets_on key ds + packets_on key ds'.
Proof. unfold packets_on. by rewrite filter_app, length_app. Qed.

Lemma distinct_destinations_app_le src ds ds' :
  distinct_destinations src ds ≤ distinct_destinations src (ds ++ ds').
Proof.
  unfold distinct_destinations, destinations_of.
  rewrite <- !size_list_to_set_remove_dups.
  apply subseteq_size. rewrite filter_app, fmap_app. set_solver.
Qed.

(** No finding is lost when a capture goes on: every connection and every
    source reported for a capture is reported, with a count at least as
    large, for every capture that starts with the same frames. *)
Theorem findings_survive_more_frames
    (frames more : list Packet) (now : string) :
  ∃ r r',
    res (analyze now {| frames := frames; closing := End |}) = [Json r]
    ∧ res (analyze now {| frames := frames ++ more; closing := End |})
      = [Json r']
    ∧ Forall (λ t,
                (∃ k c c', t = ddos_threat k c ∧ c ≤ c'
                           ∧ ddos_threat k c' ∈ res_threats r')
                ∨ (∃ s n n', t = scan_threat s n ∧ n ≤ n'
                             ∧ scan_threat s n' ∈ res_threats r'))
        (res_threats r).
Proof.
  do 2 eexists. split_and!; [apply res_analyze_End_threats_of..|]. simpl.
  rewrite bind_app. set (ds := frames ≫= decoded). set (ds' := more ≫= decoded).
  apply Forall_forall.
  intros t [(k & Hk & ->)|(s & Hs & ->)]%elem_of_threats_of.
  - left. exists k, (packets_on k ds), (packets_on k (ds ++ ds')).
    pose proof (packets_on_app k ds ds').
    split_and!; [done|lia|]. apply elem_of_threats_of. left.
    exists k. split; [lia|done].
  - right. pose proof (distinct_destinations_app_le s ds ds').
    exists s, (distinct_destinations s ds),
      (distinct_destinations s (ds ++ ds')).
    split_and!; [done..|]. apply elem_of_threats_of. right.
    exists s. split; [lia|done].
Qed.

Lemma packets_on_perm key ds ds' :
  ds ≡ₚ ds' → packets_on key ds = packets_on key ds'.
Proof. unfold packets_on. by intros ->. Qed.

Lemma distinct_destinations_perm src ds ds' :
  ds ≡ₚ ds' → distinct_destinations src ds = distinct_destinations src ds'.
Proof.
  intros Hperm. unfold distinct_destinations, destinations_of.
  rewrite <- !size_list_to_set_remove_dups. f_equal.
  apply list_to_set_perm_L. by rewrite Hperm.
Qed.

Lemma NoDup_first_seen l : NoDup (first_seen l).
Proof.
  unfold first_seen. rewrite reverse_Permutation. apply NoDup_remove_dups.
Qed.

Lemma first_seen_perm l l' : l ≡ₚ l' → first_seen l ≡ₚ first_seen l'.
Proof.
  intros Hperm. apply NoDup_Permutation; [apply NoDup_first_seen..|].
  intros x. by rewrite !elem_of_first_seen, Hperm.
Qed.

Lemma threats_of_perm ds ds' : ds ≡ₚ ds' → threats_of ds ≡ₚ threats_of ds'.
Proof.
  intros Hperm. unfold threats_of.
  rewrite !ddos_findings_closed_form, !scan_findings_closed_form.
  rewrite (list_filter_iff (λ k, 100 < packets_on k ds)
             (λ k, 100 < packets_on k ds'))
    by (intros k; by rewrite (packets_on_perm k ds ds')).
  rewrite (list_fmap_ext (λ k, ddos_threat k (packets_on k ds))
             (λ k, ddos_threat k (packets_on k ds')))
    by (intros _ k _; by rewrite (packets_on_perm k ds ds')).
  rewrite (list_filter_iff (λ s, 20 < distinct_destinations s ds)
             (λ s, 20 < distinct_destinations s ds'))
    by (intros s; by rewrite (distinct_destinations_perm s ds ds')).
  rewrite (list_fmap_ext (λ s, scan_threat s (distinct_destinations s ds))
             (λ s, scan_threat s (distinct_destinations s ds')))
    by (intros _ s _; by rewrite (distinct_destinations_perm s ds ds')).
  assert (first_seen (conn_key <$> ds) ≡ₚ first_seen (conn_key <$> ds'))
    as -> by (apply first_seen_perm; by rewrite Hperm).
  assert (first_seen (srcIP <$> ds) ≡ₚ first_seen (srcIP <$> ds'))
    as -> by (apply first_seen_perm; by rewrite Hperm).
  done.
Qed.

(** The order of the frames in a capture decides the order of the entries
    of the response and nothing else: two captures with the same frames
    in another order get the same [totalPackets], the same [packetDetails]
    up to order and the same [threats] up to order. *)
Theorem frame_order_permutes_the_response
    (frames frames' : list Packet) (now : string) :
  frames ≡ₚ frames' →
  ∃ r r',
    res (analyze now {| frames := frames; closing := End |}) = [Json r]
    ∧ res (analyze now {| frames := frames'; closing := End |}) = [Json r']
    ∧ res_totalPackets r = res_totalPackets r'
    ∧ res_packetDetails r ≡ₚ res_packetDetails r'
    ∧ res_threats r ≡ₚ res_threats r'.
Proof.
  intros Hperm. do 2 eexists.
  split_and!; [apply res_analyze_End_threats_of..| | |]; simpl.
  - by rewrite Hperm.
  - by rewrite Hperm.
  - apply threats_of_perm. by rewrite Hperm.
Qed.

Lemma frame_order_permutes_the_response_witness :
  [gre_frame; arp_frame] ≡ₚ [arp_frame; gre_frame]
  ∧ ∃ r r',
      res (analyze "T" {| frames := [gre_frame; arp_frame]; closing := End |})
      = [Json r]
      ∧ res (analyze "T" {| frames := [arp_frame; gre_frame];
                            closing := End |}) = [Json r']
      ∧ res_totalPackets r = res_totalPackets r'
      ∧ res_packetDetails r ≡ₚ res_packetDetails r'
      ∧ res_threats r ≡ₚ res_threats r'.
Proof.
  assert ([gre_frame; arp_frame] ≡ₚ [arp_frame; gre_frame]) as Hperm
    by apply perm_swap.
  split; [done|].
  by apply (frame_order_permutes_the_response
              [gre_frame; arp_frame] [arp_frame; gre_frame] "T").
Defined.

(** ** Log lines *)

Lemma readUInt16BE_throws buf off e :
  Buffer.readUInt16BE buf off = inl e → length buf < off + 2.
Proof.
  unfold Buffer.readUInt16BE, Buffer.index.
  destruct (buf !! off) as [first|] eqn:Hfirst; simpl.
  - destruct (buf !! S off) as [last|] eqn:Hlast; [done|].
    intros _. apply lookup_ge_None in Hlast. lia.
  - intros _. apply lookup_ge_None in Hfirst. lia.
Qed.

Lemma on_packet_console st p :
  console (on_packet st p)
  = console st ++ (if decide (length (data p) < 14)
                   then ["Error processing packet:"] else []).
Proof.
  destruct (on_packet_cases st p)
    as [([err Hread] & _ & ->)|[(e & Hread & _ & _ & ->)
                               |(Hread & ? & _ & _ & _ & _ & _ & ->)]]; simpl.
  - apply readUInt16BE_throws in Hread. by rewrite decide_True by lia.
  - apply readUInt16BE_length in Hread.
    by rewrite decide_False, app_nil_r by lia.
  - apply readUInt16BE_length in Hread.
    by rewrite decide_False, app_nil_r by lia.
Qed.

(** The "packet" listener logs one error line for each frame shorter than
    14 bytes and nothing for any other frame: no other frame makes the
    [try] block throw. *)
Theorem one_log_line_per_short_frame (frames : list Packet) :
  console (after_packets frames)
  = replicate (length (filter (λ p, length (data p) < 14) frames))
      "Error processing packet:".
Proof.
  unfold after_packets.
  assert (∀ st, console (foldl on_packet st frames)
                = console st
                  ++ replicate
                       (length (filter (λ p, length (data p) < 14) frames))
                       "Error processing packet:") as Hgen.
  { induction frames as [|p frames IH]; intros st; simpl.
    - by rewrite app_nil_r.
    - rewrite IH, on_packet_console, filter_cons, <- app_assoc.
      by case_decide. }
  by rewrite Hgen.
Qed.

(** * The upload filter and the stored file name *)

Lemma substring_whole s : String.substring 0 (String.length s) s = s.
Proof. induction s as [|c s IH]; simpl; [done|by rewrite IH]. Qed.

Lemma substring_after stem s :
  String.substring (String.length stem) (String.length s) (stem +:+ s) = s.
Proof. induction stem as [|c stem IH]; simpl; [apply substring_whole|done]. Qed.

Lemma length_append a b :
  String.length (a +:+ b) = String.length a + String.length b.
Proof. induction a as [|c a IH]; simpl; [done|by rewrite IH]. Qed.

Lemma substring_split k s :
  k ≤ String.length s →
  s = String.substring 0 k s +:+ String.substring k (String.length s - k) s.
Proof.
  revert k. induction s as [|c s IH]; intros [|k] Hk; simpl in *.
  - done.
  - lia.
  - by rewrite substring_whole.
  - change (String c s
            = String c (String.substring 0 k s
                        +:+ String.substring k (String.length s - k) s)).
    f_equal. apply IH. lia.
Qed.

Lemma endsWith_spec s suffix :
  JsString.endsWith s suffix = true ↔ ∃ stem, s = stem +:+ suffix.
Proof.
  unfold JsString.endsWith. split.
  - case_decide as Hlen; [|done]. intros Heq%bool_decide_eq_true.
    exists (String.substring 0 (String.length s - String.length suffix) s).
    pose proof (substring_split (String.length s - String.length suffix) s)
      as Hsplit.
    replace (String.length s - (String.length s - String.length suffix))
      with (String.length suffix) in Hsplit by lia.
    rewrite Heq in Hsplit. apply Hsplit. lia.
  - intros [stem ->]. rewrite length_append.
    rewrite decide_True by lia. apply bool_decide_eq_true.
    replace (String.length stem + String.length suffix - String.length suffix)
      with (String.length stem) by lia.
    apply substring_after.
Qed.

(** The upload filter accepts a file exactly when its original name is
    some text, possibly empty, followed by ".pcap" in lower case; every
    other name is refused with the message "Only .pcap files are
    allowed". *)
Theorem fileFilter_accepts_pcap_suffix (originalname : string) :
  (fileFilter originalname = Accepted
   ↔ ∃ stem, originalname = stem +:+ ".pcap")
  ∧ (fileFilter originalname = Accepted
     ∨ fileFilter originalname = Rejected "Only .pcap files are allowed").
Proof.
  unfold fileFilter. rewrite <- endsWith_spec.
  destruct (JsString.endsWith originalname ".pcap").
  - split; [done|by left].
  - split; [split; done|by right].
Qed.

Example fileFilter_examples :
  fileFilter "capture.pcap" = Accepted
  ∧ fileFilter ".pcap" = Accepted
  ∧ fileFilter "capture.PCAP" = Rejected "Only .pcap files are allowed"
  ∧ fileFilter "capture.pcapng" = Rejected "Only .pcap files are allowed"
  ∧ fileFilter "pcap" = Rejected "Only .pcap files are allowed".
Proof. split_and!; reflexivity. Qed.

(** Two uploads are stored under the same file name only when they have
    the same original name and arrive at the same clock reading. *)
Theorem filename_determines_upload (now now' : N) (name name' : string) :
  filename now name = filename now' name' → now = now' ∧ name = name'.
Proof.
  unfold filename. intros Heq.
  apply delimits in Heq as [Hnow ->];
    [|unfold Js.show_N; by rewrite lacks_uint..].
  by apply show_N_inj in Hnow as ->.
Qed.

Lemma filename_determines_upload_witness :
  filename 1700000000000 "capture.pcap" = filename 1700000000000 "capture.pcap"
  ∧ 1700000000000%N = 1700000000000%N ∧ "capture.pcap" = "capture.pcap".
Proof.
  split; [reflexivity|].
  apply (filename_determines_upload 1700000000000 1700000000000
           "capture.pcap" "capture.pcap").
  reflexivity.
Defined.

(** * The feedback and report routes *)

Section api.

Import Api.

Context {Num : Type} (is_zero : Num → bool).

Implicit Types (req : SaveBody (Num := Num)) (reports : Reports (Num := Num)).

(** The feedback route answers 201 exactly when the three properties of
    the body are truthy and 400 otherwise; whether MongoDB is connected
    and whether the save throws changes nothing in the reply. *)
Theorem feedback_reply_ignores_the_database
    (connected connected' : bool) (db db' : FeedbackSave)
    (req : FeedbackBody (Num := Num)) :
  feedback is_zero connected db req = feedback is_zero connected' db' req
  ∧ (status (feedback is_zero connected db req) = 201
     ↔ truthy is_zero (name req) && truthy is_zero (email req)
       && truthy is_zero (message req) = true)
  ∧ (feedback is_zero connected db req
     = {| status := 201;
          body := JObj [("message", JStr "Feedback submitted successfully")] |}
     ∨ feedback is_zero connected db req
       = error_reply 400 "All fields are required").
Proof.
  unfold feedback.
  destruct (truthy is_zero (name req)), (truthy is_zero (email req)),
    (truthy is_zero (message req)); simpl; split_and!; auto; split; done.
Qed.

(** ** File names of reports *)

Lemma append_inj_r a b s : a +:+ s = b +:+ s → a = b.
Proof.
  revert b. induction a as [|c a IH]; intros [|c' b]; simpl.
  - done.
  - intros Heq. apply (f_equal String.length) in Heq.
    rewrite !length_append in Heq. simpl in Heq. lia.
  - intros Heq. apply (f_equal String.length) in Heq.
    rewrite !length_append in Heq. simpl in Heq. lia.
  - intros [= -> Heq]. f_equal. by apply IH.
Qed.

Lemma report_file_local now :
  report_file ("local_" +:+ Js.show_N now)
  = Some ("local_" +:+ Js.show_N now +:+ ".json").
Proof.
  unfold report_file, Js.show_N.
  by rewrite lacks_app, lacks_uint.
Qed.

Lemma report_file_Some reportId file :
  report_file reportId = Some file → file = reportId +:+ ".json".
Proof. unfold report_file. case_match; congruence. Qed.

Lemma report_file_inj id id' file :
  report_file id = Some file → report_file id' = Some file → id = id'.
Proof.
  intros ->%report_file_Some Heq%report_file_Some.
  by apply append_inj_r in Heq.
Qed.

(** ** Saving, viewing and deleting without MongoDB *)

Lemma save_report_local db now createdAt req reports :
  truthy is_zero (reportName req) = true →
  truthy is_zero (reportType req) = true →
  truthy is_zero (data req) = true →
  save_report is_zero false db now createdAt req reports
  = (Some (<["local_" +:+ Js.show_N now +:+ ".json"
             := Parsed (reportData is_zero ("local_" +:+ Js.show_N now)
                          req createdAt)]> (default ∅ reports)),
     saved_reply ("local_" +:+ Js.show_N now)).
Proof. unfold save_report. by intros -> -> ->. Qed.

Lemma truthy_JObj fields : truthy is_zero (Some (JObj fields)) = true.
Proof. done. Qed.

(** Without MongoDB, a report saved with a truthy name, type and data can
    be viewed under the identifier the save answers, "local_" followed by
    the clock reading: the view answers 200 with the object that was
    written, which holds that identifier, the user ("anonymous" when the
    body has no truthy [userId]), the name, type and data of the body, and
    the creation time.  The type is not checked against PDF, JSON and
    CSV. *)
Theorem saved_report_can_be_viewed
    (db : SaveOutcome) (db' : FindOutcome) (now : N) (createdAt : string)
    req reports :
  truthy is_zero (reportName req) = true →
  truthy is_zero (reportType req) = true →
  truthy is_zero (data req) = true →
  (save_report is_zero false db now createdAt req reports).2
  = saved_reply ("local_" +:+ Js.show_N now)
  ∧ view_report is_zero false db' ("local_" +:+ Js.show_N now)
      (save_report is_zero false db now createdAt req reports).1
    = Some {| status := 200;
              body := JObj [("_id", JStr ("local_" +:+ Js.show_N now));
                            ("userId",
                             or_else is_zero (userId req) (JStr "anonymous"));
                            ("reportName", default JNull (reportName req));
                            ("reportType", default JNull (reportType req));
                            ("data", default JNull (data req));
                            ("createdAt", JStr createdAt)] |}.
Proof.
  intros Hname Htype Hdata.
  rewrite save_report_local by done. split; [done|].
  unfold view_report. simpl. rewrite report_file_local. simpl.
  by rewrite lookup_insert_eq.
Qed.

Lemma view_report_local db reportId file reports :
  report_file reportId = Some file →
  view_report is_zero false db reportId reports
  = Some match read_report reports file with
         | Some (Parsed v) =>
             if truthy is_zero (Some v) then {| status := 200; body := v |}
             else error_reply 404 "Report not found"
         | _ => error_reply 404 "Report not found"
         end.
Proof.
  intros Hfile. unfold view_report. simpl. rewrite Hfile.
  destruct (read_report reports file) as [[|v]|]; [done| |done].
  destruct v; simpl; repeat case_match; done.
Qed.

(** Without MongoDB, deleting a saved report answers 200, and viewing it
    afterwards answers 404; when no file had its name before the save, the
    directory is back to what it held. *)
Theorem deleted_report_is_gone
    (db : SaveOutcome) (db' : DeleteOutcome) (db'' : FindOutcome)
    (now : N) (createdAt : string) req reports :
  truthy is_zero (reportName req) = true →
  truthy is_zero (reportType req) = true →
  truthy is_zero (data req) = true →
  ∃ reports',
    delete_report false db' ("local_" +:+ Js.show_N now)
      (save_report is_zero false db now createdAt req reports).1
    = Some (reports',
            {| status := 200;
               body := JObj [("message",
                              JStr "Report deleted successfully")] |})
    ∧ view_report is_zero false db'' ("local_" +:+ Js.show_N now) reports'
      = Some (error_reply 404 "Report not found")
    ∧ (read_report reports ("local_" +:+ Js.show_N now +:+ ".json") = None →
       reports' = Some (default ∅ reports)).
Proof.
  intros Hname Htype Hdata. rewrite save_report_local by done. simpl.
  eexists. split_and!.
  - unfold delete_report. simpl. rewrite report_file_local.
    rewrite lookup_insert_eq. by rewrite bool_decide_true.
  - rewrite (view_report_local _ _ _ _ (report_file_local now)). simpl.
    by rewrite lookup_delete_eq.
  - intros Hnone. f_equal. rewrite delete_insert_eq. apply delete_id.
    by destruct reports.
Qed.

(** Deleting a report that has no file answers 404 and leaves the
    directory as it is, unless MongoDB is connected and deletes a document
    of that identifier. *)
Theorem delete_of_missing_report
    (connected : bool) (db : DeleteOutcome) (reportId file : string) reports :
  connected = false ∨ db ≠ Removed →
  report_file reportId = Some file →
  read_report reports file = None →
  delete_report connected db reportId reports
  = Some (reports, error_reply 404 "Report not found").
Proof.
  intros Hdb Hfile Hnone. unfold delete_report.
  assert ((if connected
           then match db with Removed => true | _ => false end
           else false) = false) as ->.
  { destruct Hdb as [->|Hdb]; [done|]. by destruct connected, db. }
  simpl. rewrite Hfile. destruct reports as [dir|]; [|done].
  simpl in Hnone. rewrite Hnone. by rewrite bool_decide_false by by intros [].
Qed.

(** Without MongoDB, a save writes one file, the one of the identifier it
    answers, and only when the body is accepted; every other file of the
    directory is as it was.  So a view of any other identifier that holds
    no path separator is answered after the save as it was before. *)
Theorem save_keeps_other_reports
    (db : SaveOutcome) (db' : FindOutcome) (now : N) (createdAt : string)
    (reportId file : string) req reports :
  report_file reportId = Some file →
  reportId ≠ "local_" +:+ Js.show_N now →
  (∀ f,
     read_report (save_report is_zero false db now createdAt req reports).1 f
     = if truthy is_zero (reportName req) && truthy is_zero (reportType req)
          && truthy is_zero (data req)
          && bool_decide (f = "local_" +:+ Js.show_N now +:+ ".json")
       then Some (Parsed (reportData is_zero ("local_" +:+ Js.show_N now)
                            req createdAt))
       else read_report reports f)
  ∧ file ≠ "local_" +:+ Js.show_N now +:+ ".json"
  ∧ read_report (save_report is_zero false db now createdAt req reports).1 file
    = read_report reports file
  ∧ ∃ reply,
      view_report is_zero false db' reportId reports = Some reply
      ∧ view_report is_zero false db' reportId
          (save_report is_zero false db now createdAt req reports).1
        = Some reply.
Proof.
  intros Hfile Hne.
  assert (file ≠ "local_" +:+ Js.show_N now +:+ ".json") as Hfile'.
  { intros ->. apply Hne.
    eapply report_file_inj; [done|apply report_file_local]. }
  assert (∀ f,
     read_report (save_report is_zero false db now createdAt req reports).1 f
     = if truthy is_zero (reportName req) && truthy is_zero (reportType req)
          && truthy is_zero (data req)
          && bool_decide (f = "local_" +:+ Js.show_N now +:+ ".json")
       then Some (Parsed (reportData is_zero ("local_" +:+ Js.show_N now)
                            req createdAt))
       else read_report reports f) as Hread.
  { intros f. unfold save_report.
    destruct (truthy is_zero (reportName req)); [|done].
    destruct (truthy is_zero (reportType req)); [|done].
    destruct (truthy is_zero (data req)); [|done]. simpl.
    case_bool_decide as Hf.
    - subst f. by rewrite lookup_insert_eq.
    - rewrite lookup_insert_ne by done. by destruct reports. }
  assert (read_report
            (save_report is_zero false db now createdAt req reports).1 file
          = read_report reports file) as Hsame.
  { rewrite Hread, (bool_decide_false _ Hfile'). by rewrite andb_false_r. }
  split_and!; [done..|].
  rewrite !(view_report_local _ _ file) by done. rewrite Hsame. by eexists.
Qed.

(** Without MongoDB, a report saved at the clock reading of an earlier
    save takes its file: the directory is as if the earlier save had not
    happened. *)
Theorem save_at_same_time_replaces
    (db db' : SaveOutcome) (now : N) (createdAt createdAt' : string)
    (req req' : SaveBody (Num := Num)) reports :
  truthy is_zero (reportName req') = true →
  truthy is_zero (reportType req') = true →
  truthy is_zero (data req') = true →
  (save_report is_zero false db' now createdAt' req'
     (save_report is_zero false db now createdAt req reports).1).1
  = Some (<["local_" +:+ Js.show_N now +:+ ".json"
            := Parsed (reportData is_zero ("local_" +:+ Js.show_N now)
                         req' createdAt')]> (default ∅ reports)).
Proof.
  intros Hname Htype Hdata. rewrite (save_report_local db') by done. simpl.
  f_equal. unfold save_report.
  destruct (negb (truthy is_zero (reportName req))
            || negb (truthy is_zero (reportType req))
            || negb (truthy is_zero (data req))); [done|].
  simpl. by rewrite insert_insert_eq.
Qed.

(** When MongoDB is connected and the save throws, the route still
    answers 201 with a "local_" identifier, but it writes no file: unless
    a file of that name was there already, a later view of the identifier
    answers 404 once MongoDB finds no such document. *)
Theorem failed_save_is_acknowledged_but_lost
    (connected' : bool) (db' : FindOutcome) (now : N) (createdAt : string)
    req reports :
  truthy is_zero (reportName req) = true →
  truthy is_zero (reportType req) = true →
  truthy is_zero (data req) = true →
  read_report reports ("local_" +:+ Js.show_N now +:+ ".json") = None →
  (∀ doc, db' ≠ Found doc) →
  save_report is_zero true SaveThrows now createdAt req reports
  = (reports, saved_reply ("local_" +:+ Js.show_N now))
  ∧ view_report is_zero connected' db' ("local_" +:+ Js.show_N now) reports
    = Some (error_reply 404 "Report not found").
Proof.
  intros Hname Htype Hdata Hnone Hdb. split.
  - unfold save_report. by rewrite Hname, Htype, Hdata.
  - unfold view_report. rewrite report_file_local, Hnone.
    destruct connected', db' as [doc| |]; try done. by destruct (Hdb doc).
Qed.

(** The save route answers 201 exactly when the name, the type and the
    data of the body are all truthy; otherwise it answers 400 and leaves
    the directory as it is. *)
Theorem save_report_validates_the_body
    (connected : bool) (db : SaveOutcome) (now : N) (createdAt : string)
    req reports :
  (status (save_report is_zero connected db now createdAt req reports).2 = 201
   ↔ truthy is_zero (reportName req) && truthy is_zero (reportType req)
     && truthy is_zero (data req) = true)
  ∧ (status (save_report is_zero connected db now createdAt req reports).2
     = 201
     ∨ save_report is_zero connected db now createdAt req reports
       = (reports,
          error_reply 400 "Report name, type, and data are required")).
Proof.
  unfold save_report.
  destruct (truthy is_zero (reportName req)),
    (truthy is_zero (reportType req)), (truthy is_zero (data req)); simpl;
    try (split; [split; done|by right]).
  destruct connected; [destruct db|]; simpl; (split; [done|by left]).
Qed.

(** ** Listing the reports of a user *)

Context (readdir : gmap string (File (Num := Num)) → list string).
Context (time_of : option (Json (Num := Num)) → option Z).

(** [fs.readdirSync] lists each file of the directory once. *)
Hypothesis readdir_lists : ∀ dir, readdir dir ≡ₚ (map_to_list dir).*1.

Lemma elem_of_readdir dir file : file ∈ readdir dir ↔ is_Some (dir !! file).
Proof.
  rewrite readdir_lists, list_elem_of_fmap. split.
  - intros ([k v] & -> & Hin%elem_of_map_to_list). by exists v.
  - intros [v Hv]. exists (file, v). split; [done|].
    by apply elem_of_map_to_list.
Qed.

Lemma sort_insert_perm compare x (l : list (Json (Num := Num))) :
  sort_insert compare x l ≡ₚ x :: l.
Proof.
  induction l as [|y l IH]; simpl; [done|].
  destruct (compare x y) as [[|?|?]|]; try done.
  rewrite IH. apply perm_swap.
Qed.

Lemma sort_perm compare (l : list (Json (Num := Num))) : sort compare l ≡ₚ l.
Proof.
  unfold sort. induction l as [|x l IH]; simpl; [done|].
  by rewrite sort_insert_perm, IH.
Qed.

Lemma elem_of_foldl_scan_file user (dir : gmap string (File (Num := Num)))
    (acc : list (Json (Num := Num))) files v :
  v ∈ foldl (scan_file user dir) acc files ↔
  v ∈ acc
  ∨ ∃ file, file ∈ files ∧ JsString.endsWith file ".json" = true
            ∧ dir !! file = Some (Parsed v)
            ∧ get_field "userId" v = Some (Some (JStr user)).
Proof.
  revert acc. induction files as [|file files IH]; intros acc; simpl.
  - split; [by left|].
    intros [?|(? & Hnil & _)]; [done|by apply elem_of_nil in Hnil].
  - rewrite IH. clear IH. split.
    + intros [Hin|(f & Hf & Hrest)].
      * unfold scan_file in Hin.
        destruct (JsString.endsWith file ".json") eqn:Hjson; [|by left].
        destruct (dir !! file) as [[|w]|] eqn:Hw; [by left| |by left].
        destruct (get_field "userId" w) as [[[| | |u| |]|]|] eqn:Hu;
          try by left.
        case_bool_decide as Huser; [|by left]. subst u.
        apply elem_of_app in Hin as [Hin| ->%list_elem_of_singleton];
          [by left|].
        right. exists file. split_and!; [apply elem_of_cons; by left|done..].
      * right. exists f. split; [apply elem_of_cons; by right|done].
    + intros [Hin|(f & [-> |Hf]%elem_of_cons & Hjson & Hw & Hu)].
      * left. unfold scan_file. repeat case_match; try done.
        apply elem_of_app. by left.
      * left. unfold scan_file. rewrite Hjson, Hw, Hu.
        rewrite bool_decide_true by done.
        apply elem_of_app. right. by apply list_elem_of_singleton.
      * right. by exists f.
Qed.

Lemma list_reports_local_items
    (db : ListOutcome (Num := Num)) (param : string)
    (dir : gmap string (File (Num := Num))) :
  param ≠ "" →
  ∃ items,
    list_reports readdir time_of false db param (Some dir)
    = {| status := 200; body := JArr items |}
    ∧ ∀ v, v ∈ items ↔
           ∃ file, JsString.endsWith file ".json" = true
                   ∧ dir !! file = Some (Parsed v)
                   ∧ get_field "userId" v = Some (Some (JStr param)).
Proof.
  intros Hparam. eexists. split; [done|]. intros v.
  rewrite bool_decide_false by done.
  rewrite sort_perm, elem_of_foldl_scan_file. split.
  - intros [Hnil|(file & _ & ?)]; [by apply elem_of_nil in Hnil|].
    by exists file.
  - intros (file & Hjson & Hv & Hu). right. exists file.
    split; [|done]. apply elem_of_readdir. by exists (Parsed v).
Qed.


(** Without MongoDB, a report that was saved is listed for its user: for
    the string given as [userId] when that is a non-empty string, and for
    "anonymous" when the body has no truthy [userId]. *)
Theorem saved_report_is_listed
    (db : SaveOutcome) (db' : ListOutcome (Num := Num)) (now : N)
    (createdAt user : string) req reports :
  truthy is_zero (reportName req) = true →
  truthy is_zero (reportType req) = true →
  truthy is_zero (data req) = true →
  or_else is_zero (userId req) (JStr "anonymous") = JStr user →
  ∃ items,
    list_reports readdir time_of false db' user
      (save_report is_zero false db now createdAt req reports).1
    = {| status := 200; body := JArr items |}
    ∧ reportData is_zero ("local_" +:+ Js.show_N now) req createdAt ∈ items.
Proof.
  intros Hname Htype Hdata Huser.
  assert (user ≠ "") as Hne.
  { intros ->. unfold or_else in Huser.
    destruct (userId req) as [[| | |s| |]|]; simpl in Huser; try done;
      repeat case_match; try done.
    injection Huser as ->. by rewrite bool_decide_true in *. }
  rewrite save_report_local by done. simpl.
  destruct (list_reports_local_items db' user
              (<["local_" +:+ Js.show_N now +:+ ".json"
                 := Parsed (reportData is_zero ("local_" +:+ Js.show_N now)
                              req createdAt)]> (default ∅ reports)) Hne)
    as (items & -> & Hitems).
  exists items. split; [done|]. apply Hitems.
  exists ("local_" +:+ Js.show_N now +:+ ".json"). split_and!.
  - apply endsWith_spec. by exists ("local_" +:+ Js.show_N now).
  - by rewrite lookup_insert_eq.
  - unfold reportData. simpl. by rewrite Huser.
Qed.

Lemma sort_insert_sorted x (l : list (Json (Num := Num))) :
  is_Some (time_of (default None (get_field "createdAt" x))) →
  Forall (λ v, is_Some (time_of (default None (get_field "createdAt" v)))) l →
  StronglySorted (not_older time_of) l →
  StronglySorted (not_older time_of) (sort_insert (newest_first time_of) x l).
Proof.
  intros [tx Hx]. induction l as [|y l IH]; simpl.
  - intros _ _. repeat constructor.
  - intros [[ty Hy] Hl]%Forall_cons [Hyl Hsorted]%StronglySorted_cons.
    unfold newest_first at 1. rewrite Hy, Hx.
    destruct (ty - tx)%Z as [|d|d] eqn:Hd.
    + apply StronglySorted_cons. split; [|by apply StronglySorted_cons].
      apply Forall_cons. split; [exists tx, ty; split_and!; [done..|lia]|].
      eapply Forall_impl; [apply Hyl|].
      intros z (ty' & tz & Hy' & Hz & Hle). exists tx, tz.
      split_and!; [done..|]. assert (ty' = ty) as -> by congruence. lia.
    + apply StronglySorted_cons. split; [|by apply IH].
      rewrite sort_insert_perm. apply Forall_cons. split; [|done].
      exists ty, tx. split_and!; [done..|lia].
    + apply StronglySorted_cons. split; [|by apply StronglySorted_cons].
      apply Forall_cons. split; [exists tx, ty; split_and!; [done..|lia]|].
      eapply Forall_impl; [apply Hyl|].
      intros z (ty' & tz & Hy' & Hz & Hle). exists tx, tz.
      split_and!; [done..|]. assert (ty' = ty) as -> by congruence. lia.
Qed.

Lemma sort_sorted (l : list (Json (Num := Num))) :
  Forall (λ v, is_Some (time_of (default None (get_field "createdAt" v)))) l →
  StronglySorted (not_older time_of) (sort (newest_first time_of) l).
Proof.
  unfold sort. induction l as [|x l IH]; simpl; [constructor|].
  intros [Hx Hl]%Forall_cons. apply sort_insert_sorted; [done| |by apply IH].
  fold (sort (newest_first time_of) l). by rewrite sort_perm.
Qed.

(** Without MongoDB, when the files of the directory that parse hold
    valid creation times, the list route answers the reports of the user
    newest first: every report of the answer is at least as recent as all
    those after it. *)
Theorem listed_reports_are_newest_first
    (db : ListOutcome (Num := Num)) (param : string)
    (dir : gmap string (File (Num := Num))) :
  (∀ file v, dir !! file = Some (Parsed v) →
             is_Some (time_of (default None (get_field "createdAt" v)))) →
  ∃ items,
    list_reports readdir time_of false db param (Some dir)
    = {| status := 200; body := JArr items |}
    ∧ StronglySorted (not_older time_of) items.
Proof.
  intros Hvalid. eexists. split; [done|]. apply sort_sorted.
  apply Forall_forall. intros v.
  rewrite elem_of_foldl_scan_file.
  intros [Hnil|(file & _ & _ & Hv & _)]; [by apply elem_of_nil in Hnil|].
  by eapply Hvalid.
Qed.

End api.

(** ** The report routes on sample values *)

Lemma saved_report_can_be_viewed_witness :
  Api.truthy sample_is_zero (Api.reportName sample_req) = true
  ∧ Api.truthy sample_is_zero (Api.reportType sample_req) = true
  ∧ Api.truthy sample_is_zero (Api.data sample_req) = true
  ∧ (Api.save_report sample_is_zero false Api.SaveThrows 7 "T" sample_req
       None).2
    = Api.saved_reply ("local_" +:+ Js.show_N 7)
  ∧ Api.view_report sample_is_zero false Api.NotFound
      ("local_" +:+ Js.show_N 7)
      (Api.save_report sample_is_zero false Api.SaveThrows 7 "T" sample_req
         None).1
    = Some {| Api.status := 200;
              Api.body :=
                Api.JObj
                  [("_id", Api.JStr ("local_" +:+ Js.show_N 7));
                   ("userId",
                    Api.or_else sample_is_zero (Api.userId sample_req)
                      (Api.JStr "anonymous"));
                   ("reportName", default Api.JNull (Api.reportName sample_req));
                   ("reportType", default Api.JNull (Api.reportType sample_req));
                   ("data", default Api.JNull (Api.data sample_req));
                   ("createdAt", Api.JStr "T")] |}.
Proof.
  split_and!; [reflexivity..| |];
    apply (saved_report_can_be_viewed sample_is_zero Api.SaveThrows
             Api.NotFound 7 "T" sample_req None); reflexivity.
Defined.

Lemma deleted_report_is_gone_witness :
  Api.truthy sample_is_zero (Api.reportName sample_req) = true
  ∧ Api.truthy sample_is_zero (Api.reportType sample_req) = true
  ∧ Api.truthy sample_is_zero (Api.data sample_req) = true
  ∧ ∃ reports',
      Api.delete_report false Api.Missing ("local_" +:+ Js.show_N 7)
        (Api.save_report sample_is_zero false Api.SaveThrows 7 "T"
           sample_req None).1
      = Some (reports',
              {| Api.status := 200;
                 Api.body := Api.JObj [("message",
                                        Api.JStr "Report deleted successfully")]
              |})
      ∧ Api.view_report sample_is_zero false Api.NotFound
          ("local_" +:+ Js.show_N 7) reports'
        = Some (Api.error_reply 404 "Report not found")
      ∧ (Api.read_report (None : Api.Reports (Num := Z))
           ("local_" +:+ Js.show_N 7 +:+ ".json") = None →
         reports' = Some (default ∅ (None : Api.Reports (Num := Z)))).
Proof.
  split_and!; [reflexivity..|].
  apply (deleted_report_is_gone sample_is_zero Api.SaveThrows Api.Missing
           Api.NotFound 7 "T" sample_req None); reflexivity.
Defined.

Lemma delete_of_missing_report_witness :
  (true = false ∨ Api.Missing ≠ Api.Removed)
  ∧ Api.report_file "local_9" = Some "local_9.json"
  ∧ Api.read_report (Some sample_dir) "local_9.json" = None
  ∧ Api.delete_report true Api.Missing "local_9" (Some sample_dir)
    = Some (Some sample_dir, Api.error_reply 404 "Report not found").
Proof.
  assert (true = false ∨ Api.Missing ≠ Api.Removed) as Hdb by (by right).
  assert (Api.report_file "local_9" = Some "local_9.json") as Hfile
    by reflexivity.
  assert (Api.read_report (Some sample_dir) "local_9.json" = None) as Hnone
    by (vm_compute; reflexivity).
  split_and!; [done..|].
  exact (delete_of_missing_report true Api.Missing "local_9" "local_9.json"
           (Some sample_dir) Hdb Hfile Hnone).
Defined.

Lemma save_keeps_other_reports_witness :
  Api.report_file "local_5" = Some "local_5.json"
  ∧ "local_5" ≠ "local_" +:+ Js.show_N 7
  ∧ Api.read_report
      (Api.save_report sample_is_zero false Api.SaveThrows 7 "T" sample_req
         (Some sample_dir)).1 "local_5.json"
    = Api.read_report (Some sample_dir) "local_5.json"
  ∧ ∃ reply,
      Api.view_report sample_is_zero false Api.NotFound "local_5"
        (Some sample_dir) = Some reply
      ∧ Api.view_report sample_is_zero false Api.NotFound "local_5"
          (Api.save_report sample_is_zero false Api.SaveThrows 7 "T" sample_req
             (Some sample_dir)).1
        = Some reply.
Proof.
  assert (Api.report_file "local_5" = Some "local_5.json") as Hfile
    by reflexivity.
  assert ("local_5" ≠ "local_" +:+ Js.show_N 7) as Hne by done.
  split; [exact Hfile|]. split; [exact Hne|].
  destruct (save_keeps_other_reports sample_is_zero Api.SaveThrows
              Api.NotFound 7 "T" "local_5" "local_5.json" sample_req
              (Some sample_dir) Hfile Hne) as (_ & _ & Hsame & Hview).
  split; [exact Hsame|exact Hview].
Defined.

(** The view of the sample report before and after the save of another. *)
Example save_keeps_sample_report :
  Api.view_report sample_is_zero false Api.NotFound "local_5"
    (Api.save_report sample_is_zero false Api.SaveThrows 7 "T" sample_req
       (Some sample_dir)).1
  = Some {| Api.status := 200;
            Api.body := Api.JObj [("userId", Api.JStr "alice");
                                  ("createdAt", Api.JNum 5%Z)] |}
  ∧ Api.view_report sample_is_zero false Api.NotFound "local_7"
      (Some sample_dir)
    = Some (Api.error_reply 404 "Report not found")
  ∧ Api.view_report sample_is_zero false Api.NotFound "local_7"
      (Api.save_report sample_is_zero false Api.SaveThrows 7 "T" sample_req
         (Some sample_dir)).1
    = Some {| Api.status := 200;
              Api.body := Api.reportData sample_is_zero "local_7" sample_req
                            "T" |}.
Proof. split_and!; vm_compute; reflexivity. Qed.

Lemma save_at_same_time_replaces_witness :
  Api.truthy sample_is_zero (Api.reportName sample_req) = true
  ∧ Api.truthy sample_is_zero (Api.reportType sample_req) = true
  ∧ Api.truthy sample_is_zero (Api.data sample_req) = true
  ∧ (Api.save_report sample_is_zero false Api.SaveThrows 7 "T2" sample_req
       (Api.save_report sample_is_zero false Api.SaveThrows 7 "T1"
          sample_req None).1).1
    = Some (<["local_" +:+ Js.show_N 7 +:+ ".json"
              := Api.Parsed (Api.reportData sample_is_zero
                               ("local_" +:+ Js.show_N 7) sample_req "T2")]>
              (default ∅ (None : Api.Reports (Num := Z)))).
Proof.
  split_and!; [reflexivity..|].
  apply (save_at_same_time_replaces sample_is_zero Api.SaveThrows
           Api.SaveThrows 7 "T1" "T2" sample_req sample_req None);
    reflexivity.
Defined.

Lemma failed_save_is_acknowledged_but_lost_witness :
  Api.truthy sample_is_zero (Api.reportName sample_req) = true
  ∧ Api.truthy sample_is_zero (Api.reportType sample_req) = true
  ∧ Api.truthy sample_is_zero (Api.data sample_req) = true
  ∧ Api.read_report (Some sample_dir) ("local_" +:+ Js.show_N 7 +:+ ".json")
    = None
  ∧ (∀ doc, Api.FindThrows ≠ Api.Found (Num := Z) doc)
  ∧ Api.save_report sample_is_zero true Api.SaveThrows 7 "T" sample_req
      (Some sample_dir)
    = (Some sample_dir, Api.saved_reply ("local_" +:+ Js.show_N 7))
  ∧ Api.view_report sample_is_zero true Api.FindThrows
      ("local_" +:+ Js.show_N 7) (Some sample_dir)
    = Some (Api.error_reply 404 "Report not found").
Proof.
  assert (Api.read_report (Some sample_dir)
            ("local_" +:+ Js.show_N 7 +:+ ".json") = None) as Hnone
    by (vm_compute; reflexivity).
  assert (∀ doc, Api.FindThrows ≠ Api.Found (Num := Z) doc) as Hdb by done.
  split_and!; [reflexivity..|done|done| |];
    apply (failed_save_is_acknowledged_but_lost sample_is_zero true
             Api.FindThrows 7 "T" sample_req (Some sample_dir));
    done || reflexivity.
Defined.

Lemma sample_readdir_lists dir : sample_readdir dir ≡ₚ (map_to_list dir).*1.
Proof. done. Qed.


Lemma saved_report_is_listed_witness :
  (∀ dir, sample_readdir dir ≡ₚ (map_to_list dir).*1)
  ∧ Api.truthy sample_is_zero (Api.reportName sample_req) = true
  ∧ Api.truthy sample_is_zero (Api.reportType sample_req) = true
  ∧ Api.truthy sample_is_zero (Api.data sample_req) = true
  ∧ Api.or_else sample_is_zero (Api.userId sample_req) (Api.JStr "anonymous")
    = Api.JStr "anonymous"
  ∧ ∃ items,
      Api.list_reports sample_readdir sample_time_of false Api.FetchThrows
        "anonymous"
        (Api.save_report sample_is_zero false Api.SaveThrows 7 "T" sample_req
           (Some sample_dir)).1
      = {| Api.status := 200; Api.body := Api.JArr items |}
      ∧ Api.reportData sample_is_zero ("local_" +:+ Js.show_N 7) sample_req "T"
        ∈ items.
Proof.
  split_and!; [apply sample_readdir_lists|reflexivity..|].
  apply (saved_report_is_listed sample_is_zero sample_readdir sample_time_of
           sample_readdir_lists Api.SaveThrows Api.FetchThrows 7 "T"
           "anonymous" sample_req (Some sample_dir)); reflexivity.
Defined.

Lemma sample_archive_times file v :
  sample_archive !! file = Some (Api.Parsed v) →
  is_Some (sample_time_of (default None (Api.get_field "createdAt" v))).
Proof.
  unfold sample_archive. intros Hfile.
  repeat (apply lookup_insert_Some in Hfile
            as [[_ [= <-]]|[_ Hfile]]; [by eexists|]).
  by apply lookup_singleton_Some in Hfile as [_ ?].
Qed.

Lemma listed_reports_are_newest_first_witness :
  (∀ file v, sample_archive !! file = Some (Api.Parsed v) →
             is_Some (sample_time_of
                        (default None (Api.get_field "createdAt" v))))
  ∧ ∃ items,
      Api.list_reports sample_readdir sample_time_of false Api.FetchThrows
        "alice" (Some sample_archive)
      = {| Api.status := 200; Api.body := Api.JArr items |}
      ∧ StronglySorted (Api.not_older sample_time_of) items.
Proof.
  split; [apply sample_archive_times|].
  exact (listed_reports_are_newest_first sample_readdir sample_time_of
           Api.FetchThrows "alice" sample_archive sample_archive_times).
Defined.

(** The three reports of "alice" in the sample directory are found in
    another order than the one they are answered in. *)
Example archive_listed_newest_first :
  foldl (Api.scan_file "alice" sample_archive) []
    (sample_readdir sample_archive)
  = [ Api.JObj [("userId", Api.JStr "alice"); ("createdAt", Api.JNum 7%Z)];
      Api.JObj [("userId", Api.JStr "alice"); ("createdAt", Api.JNum 5%Z)];
      Api.JObj [("userId", Api.JStr "alice"); ("createdAt", Api.JNum 9%Z)] ]
  ∧ Api.list_reports sample_readdir sample_time_of false Api.FetchThrows
      "alice" (Some sample_archive)
    = {| Api.status := 200;
         Api.body :=
           Api.JArr
             [ Api.JObj [("userId", Api.JStr "alice");
                         ("createdAt", Api.JNum 9%Z)];
               Api.JObj [("userId", Api.JStr "alice");
                         ("createdAt", Api.JNum 7%Z)];
               Api.JObj [("userId", Api.JStr "alice");
                         ("createdAt", Api.JNum 5%Z)] ] |}.
Proof. split; vm_compute; reflexivity. Qed.
